(** * cheapRuler: planar approximations of geodesic measurements

    A shallow embedding of the Go package [cheapRuler] and the properties
    its specification states about it.

    Numbers.  Go's [float64] is idealised as the real numbers [R]: every
    arithmetic operation of the source is the corresponding exact operation,
    [math.Sqrt] is [sqrt], [math.Cos] is [cos], [math.Pi] is [PI].  Rounding,
    overflow, underflow and NaN are outside the model, and so is the result
    of a division by zero (an infinity or NaN in Go).  [math.Inf(1)] is the
    one infinite value the source uses and gets a constructor of its own.

    Signed zeros.  The coordinates and scale factors a function is given
    are reals: a zero among them is the positive zero.  The one place
    where the source tells the two zeros apart is [math.Atan2] in the
    bearing, so the two products handed to it are computed as [signed]
    numbers: a real, or the negative zero with the sign IEEE 754 gives a
    zero product.

    Constants.  A Go constant expression of two integer literals is an
    integer: [1000 / 1852] in the unit table is the integer quotient 0.

    Panics.  An index expression [l[i]] of the source that is out of range
    aborts the Go program; the embedding returns [None] there
    (stdpp's list lookup [l !! i]). *)

From Stdlib Require Import Reals Lra Lia.
From stdpp Require Import base decidable option list strings gmap.

#[local] Open Scope R_scope.

(** ** Decidable comparisons on the reals

    The source branches on [<], [<=], [>], [>=], [==] and [!=] of floats;
    the instances below let the embedding branch with [decide]. *)

#[global] Instance R_eq_dec : EqDecision R := Req_dec_T.
#[global] Instance Rlt_decision : RelDecision Rlt := Rlt_dec.
#[global] Instance Rle_decision : RelDecision Rle := Rle_dec.
#[global] Instance Rgt_decision : RelDecision Rgt := Rgt_dec.
#[global] Instance Rge_decision : RelDecision Rge := Rge_dec.
#[global] Instance nat_gt_decision : RelDecision gt :=
  fun a b => decide (b < a)%nat.

(** ** Data model *)

(** [type Ruler struct { kx, ky float64 }] *)
Record Ruler : Type := mkRuler { kx : R; ky : R }.

(** [type Point [2]float64]: a [longitude, latitude] array; [p[0]] is
    [lon p] and [p[1]] is [lat p]. *)
Record Point : Type := mkPoint { lon : R; lat : R }.

(** [type Bbox [4]float64]:
    [southwestLon, southwestLat, northeastLon, northeastLat]. *)
Record Bbox : Type :=
  mkBbox { swLon : R; swLat : R; neLon : R; neLat : R }.

(** [type Line []Point] *)
Abbreviation Line := (list Point).

(** [type PointOnLine struct { point Point; index int; t float64 }].
    Go keeps types and methods apart, so the type and the method
    [PointOnLine] share their name; the type is [PointOnLine_t] here.
    The index is a segment index and never negative. *)
Record PointOnLine_t : Type :=
  mkPointOnLine { point : Point; index : nat; t : R }.

#[global] Instance Point_eq_dec : EqDecision Point.
Proof. solve_decision. Defined.

#[global] Instance Bbox_eq_dec : EqDecision Bbox.
Proof. solve_decision. Defined.

(** ** The unit table *)

(** [var Units = map[string]float64{...}].  The entry of "nauticalmiles"
    is written [1000 / 1852]: both operands are untyped integer constants,
    the quotient is the integer 0, and the map holds 0.  The other
    quotients have a floating-point operand and are real quotients. *)
Definition Units : gmap string R :=
  <["kilometers" := 1]>
  (<["miles" := 1000 / 1609.344]>
  (<["nauticalmiles" := 0]>
  (<["meters" := 1000]>
  (<["metres" := 1000]>
  (<["yards" := 1000 / 0.9144]>
  (<["feet" := 1000 / 0.3048]>
  (<["inches" := 1000 / 0.0254]> ∅))))))).

(** ** Construction *)

(** [func NewRuler(lat float64, unit string) (Ruler, error)].
    The error is [None] for Go's [nil] and carries the message otherwise.
    The local variable [cos] of the source is [cos1], next to the cosine
    function. *)
Definition NewRuler (lat : R) (unit : string) : Ruler * option string :=
  let '(m, e) :=
    match Units !! unit with
    | Some scale => (scale, None)
    | None => (1, Some (unit +:+ " is not a valid unit"))
    end in
  let cos1 := cos (lat * PI / 180) in
  let cos2 := 2 * cos1 * cos1 - 1 in
  let cos3 := 2 * cos1 * cos2 - cos1 in
  let cos4 := 2 * cos1 * cos3 - cos2 in
  let cos5 := 2 * cos1 * cos4 - cos3 in
  let kx := m * (111.41513 * cos1 - 0.09455 * cos3 + 0.00012 * cos5) in
  let ky := m * (111.13209 - 0.56605 * cos2 + 0.0012 * cos4) in
  (mkRuler kx ky, e).

(** ** Point operations *)

(** [func (r Ruler) Distance(a Point, b Point) float64] *)
Definition Distance (r : Ruler) (a b : Point) : R :=
  let dx := (lon a - lon b) * kx r in
  let dy := (lat a - lat b) * ky r in
  sqrt (dx * dx + dy * dy).

(** A float64 value as far as [math.Atan2] can tell values apart: a real
    number, [Num 0] being the positive zero, or the negative zero. *)
Inductive signed : Type :=
  | NegZero
  | Num (x : R).

(** The real value: what [==], [<] and the arithmetic see. *)
Definition toR (f : signed) : R :=
  match f with
  | NegZero => 0
  | Num x => x
  end.

(** The sign bit. *)
Definition negative (f : signed) : Prop :=
  match f with
  | NegZero => True
  | Num x => x < 0
  end.

#[global] Instance negative_dec f : Decision (negative f).
Proof. destruct f; simpl; apply _. Defined.

(** [a - b] of two reals: equal operands give the positive zero. *)
Definition fsub (a b : R) : signed := Num (a - b).

(** [a * k]: a zero product is negative exactly when one of the two signs
    is. *)
Definition fmul (a : signed) (k : R) : signed :=
  if decide (toR a * k = 0) then
    if decide ((negative a /\ ~ k < 0) \/ (~ negative a /\ k < 0))
    then NegZero else Num 0
  else Num (toR a * k).

(** [math.Atan2(y, x)] of Go's standard library: the angle of the vector
    [(x, y)], built from [atan] by quadrant, with the special cases the
    library documents: [Atan2(y>0, 0) = +Pi/2], [Atan2(y<0, 0) = -Pi/2],
    [Atan2(+0, x>=0) = +0], [Atan2(-0, x>=0) = -0], [Atan2(+0, x<=-0) = +Pi],
    [Atan2(-0, x<=-0) = -Pi].  The result is a real: a zero result is 0
    whatever its sign. *)
Definition Atan2 (y x : signed) : R :=
  if decide (0 < toR x) then atan (toR y / toR x)
  else if decide (toR x < 0) then
    if decide (0 < toR y) then atan (toR y / toR x) + PI
    else if decide (toR y < 0) then atan (toR y / toR x) - PI
    else match y with NegZero => - PI | Num _ => PI end
  else if decide (0 < toR y) then PI / 2
  else if decide (toR y < 0) then - (PI / 2)
  else
    match y, x with
    | Num _, Num _ => 0
    | NegZero, Num _ => 0
    | Num _, NegZero => PI
    | NegZero, NegZero => - PI
    end.

(** [func (r Ruler) Bearing(a Point, b Point) float64] *)
Definition Bearing (r : Ruler) (a b : Point) : R :=
  let dx := fmul (fsub (lon b) (lon a)) (kx r) in
  let dy := fmul (fsub (lat b) (lat a)) (ky r) in
  if decide (toR dx = 0 /\ toR dy = 0) then 0
  else
    let bearing := Atan2 dx dy * 180 / PI in
    if decide (bearing > 180) then bearing - 360 else bearing.

(** [func (r Ruler) Offset(p Point, dx float64, dy float64) Point] *)
Definition Offset (r : Ruler) (p : Point) (dx dy : R) : Point :=
  mkPoint (lon p + dx / kx r) (lat p + dy / ky r).

(** [func (r Ruler) Destination(p Point, d float64, b float64) Point] *)
Definition Destination (r : Ruler) (p : Point) (d b : R) : Point :=
  let a := b * PI / 180 in
  Offset r p (sin a * d) (cos a * d).

(** [func interpolate(a Point, b Point, t float64) Point] *)
Definition interpolate (a b : Point) (t : R) : Point :=
  let dx := lon b - lon a in
  let dy := lat b - lat a in
  mkPoint (lon a + dx * t) (lat a + dy * t).

(** ** Line operations

    Every loop of the source has the shape
    [for i := 0; i < len(l)-1; i++ { p0 := l[i]; p1 := l[i+1]; ... }].
    It is embedded as a recursion on the part of the line not visited yet:
    the head and its successor are [l[i]] and [l[i+1]], the recursive call
    on the tail is the next iteration, and a line with fewer than two
    points left ends the loop.  The loop variables are the accumulators. *)

(** The loop of [LineDistance]; [distance] is the running total. *)
Fixpoint LineDistance_loop (r : Ruler) (distance : R) (l : Line) : R :=
  match l with
  | p0 :: ((p1 :: _) as tl) =>
      LineDistance_loop r (distance + Distance r p0 p1) tl
  | _ => distance
  end.

(** [func (r Ruler) LineDistance(l Line) float64] *)
Definition LineDistance (r : Ruler) (l : Line) : R :=
  LineDistance_loop r 0 l.

(** The loop of [Along]: [Some] is the [return] inside the loop, [None]
    is the loop running to its end. *)
Fixpoint Along_loop (r : Ruler) (dist sum : R) (l : Line) : option Point :=
  match l with
  | p0 :: ((p1 :: _) as tl) =>
      let d := Distance r p0 p1 in
      let sum := sum + d in
      if decide (sum > dist) then
        Some (interpolate p0 p1 ((dist - (sum - d)) / d))
      else Along_loop r dist sum tl
  | _ => None
  end.

(** [func (r Ruler) Along(l Line, dist float64) Point].
    [None] is the index-out-of-range panic of [l[0]] or [l[len(l)-1]] on an
    empty line. *)
Definition Along (r : Ruler) (l : Line) (dist : R) : option Point :=
  if decide (dist <= 0) then l !! 0%nat
  else
    match Along_loop r dist 0 l with
    | Some p => Some p
    | None => l !! (length l - 1)%nat
    end.

(** [minDist] starts at [math.Inf(1)]: a value every distance is below. *)
Inductive MinDist : Type :=
  | PosInf
  | Finite (d : R).

(** [sqDist < minDist] *)
Definition below (sqDist : R) (m : MinDist) : Prop :=
  match m with
  | PosInf => True
  | Finite d => sqDist < d
  end.

#[global] Instance below_dec sqDist m : Decision (below sqDist m).
Proof. destruct m; simpl; apply _. Defined.

(** The variables of [PointOnLine] that live across iterations.  [t] is
    declared before the loop ([var ..., t float64]) and is assigned only on
    a segment of non-zero length, so a zero-length segment sees the value
    the previous one left; it is the field [tvar]. *)
Record SnapVars : Type := mkSnapVars {
  minDist : MinDist;
  minX : R;
  minY : R;
  minT : R;
  minI : nat;
  tvar : R
}.

(** First half of the loop body: the candidate [(x, y)] of the segment
    from [p0] to [p1] for the query point [p], and the value of [t] after
    it ([t0] is the value before). *)
Definition snap (r : Ruler) (p p0 p1 : Point) (t0 : R) : R * R * R :=
  let x := lon p0 in
  let y := lat p0 in
  let dx := (lon p1 - x) * kx r in
  let dy := (lat p1 - y) * ky r in
  if decide (dx <> 0 \/ dy <> 0) then
    let t := ((lon p - x) * kx r * dx + (lat p - y) * ky r * dy)
             / (dx * dx + dy * dy) in
    if decide (t > 1) then (lon p1, lat p1, t)
    else if decide (t > 0) then (x + (dx / kx r) * t, y + (dy / ky r) * t, t)
    else (x, y, t)
  else (x, y, t0).

(** Second half: the squared projected distance from [p] to [(x, y)]. *)
Definition sqDistTo (r : Ruler) (p : Point) (x y : R) : R :=
  let dx := (lon p - x) * kx r in
  let dy := (lat p - y) * ky r in
  dx * dx + dy * dy.

(** One iteration of the loop of [PointOnLine], at index [i]. *)
Definition PointOnLine_body (r : Ruler) (p : Point) (i : nat)
    (p0 p1 : Point) (s : SnapVars) : SnapVars :=
  let '(x, y, t) := snap r p p0 p1 (tvar s) in
  let sqDist := sqDistTo r p x y in
  if decide (below sqDist (minDist s)) then
    mkSnapVars (Finite sqDist) x y t i t
  else
    mkSnapVars (minDist s) (minX s) (minY s) (minT s) (minI s) t.

Fixpoint PointOnLine_loop (r : Ruler) (p : Point) (i : nat)
    (s : SnapVars) (l : Line) : SnapVars :=
  match l with
  | p0 :: ((p1 :: _) as tl) =>
      PointOnLine_loop r p (S i) (PointOnLine_body r p i p0 p1 s) tl
  | _ => s
  end.

(** [func (r Ruler) PointOnLine(l Line, p Point) PointOnLine] *)
Definition PointOnLine (r : Ruler) (l : Line) (p : Point) : PointOnLine_t :=
  let s := PointOnLine_loop r p 0 (mkSnapVars PosInf 0 0 0 0 0) l in
  mkPointOnLine (mkPoint (minX s) (minY s)) (minI s)
                (Rmax 0 (Rmin 1 (minT s))).

(** The test of the [if] that exchanges [p1] and [p2] in [LineSlice]. *)
Definition swapped (p1 p2 : PointOnLine_t) : Prop :=
  (index p1 > index p2)%nat \/ (index p1 = index p2 /\ t p1 < t p2).

#[global] Instance swapped_dec p1 p2 : Decision (swapped p1 p2).
Proof. unfold swapped; apply _. Defined.

(** [func (r Ruler) LineSlice(start Point, end Point, l Line) Line].
    [None] is an index-out-of-range panic of [l[left]], [l[i]] or
    [l[right]]. *)
Definition LineSlice (r : Ruler) (start end_ : Point) (l : Line)
    : option Line :=
  let p1 := PointOnLine r l start in
  let p2 := PointOnLine r l end_ in
  let '(p1, p2) := if decide (swapped p1 p2) then (p2, p1) else (p1, p2) in
  let slice := [point p1] in
  let left := (index p1 + 1)%nat in
  let right := index p2 in
  lleft ← l !! left;
  let slice :=
    if decide (lleft <> point p1 /\ (left <= right)%nat)
    then slice ++ [lleft] else slice in
  middle ← mapM (fun i => l !! i) (seq (left + 1) (right - left));
  let slice := slice ++ middle in
  lright ← l !! right;
  Some (if decide (lright <> point p2) then slice ++ [point p2] else slice).

(** The three conditional appends in the body of the loop of
    [LineSliceAlong], with [sum] already increased by [d]. *)

(** [if sum > start && len(slice) == 0 {
       slice = append(slice, interpolate(p0, p1, (start-(sum-d))/d)) }] *)
Definition appendStart (start sum d : R) (p0 p1 : Point) (slice : Line)
    : Line :=
  if decide (sum > start /\ length slice = 0%nat)
  then slice ++ [interpolate p0 p1 ((start - (sum - d)) / d)]
  else slice.

(** [slice = append(slice, interpolate(p0, p1, (stop-(sum-d))/d))] *)
Definition appendStop (stop sum d : R) (p0 p1 : Point) (slice : Line)
    : Line :=
  slice ++ [interpolate p0 p1 ((stop - (sum - d)) / d)].

(** [if sum > start { slice = append(slice, p1) }] *)
Definition appendVertex (start sum : R) (p1 : Point) (slice : Line) : Line :=
  if decide (sum > start) then slice ++ [p1] else slice.

(** The loop of [LineSliceAlong]. *)
Fixpoint LineSliceAlong_loop (r : Ruler) (start stop sum : R)
    (slice : Line) (l : Line) : Line :=
  match l with
  | p0 :: ((p1 :: _) as tl) =>
      let d := Distance r p0 p1 in
      let sum := sum + d in
      let slice := appendStart start sum d p0 p1 slice in
      if decide (sum >= stop) then
        appendStop stop sum d p0 p1 slice
      else
        let slice := appendVertex start sum p1 slice in
        LineSliceAlong_loop r start stop sum slice tl
  | _ => slice
  end.

(** [func (r Ruler) LineSliceAlong(start float64, stop float64, l Line) Line] *)
Definition LineSliceAlong (r : Ruler) (start stop : R) (l : Line) : Line :=
  LineSliceAlong_loop r start stop 0 [] l.

(** ** Area *)

(** [type Polygon []Line]: one outer ring, then holes. *)
Abbreviation Polygon := (list Line).

(** The inner loop of [Area] over one ring,
    [for j, len, k := 0, len(ring), len(ring)-1; j < len; k, j = j+1, j+1].
    [n] counts the iterations left ([len - j]).  The post statement is one
    tuple assignment: both right-hand sides are evaluated with the old [j],
    so [k] and [j] both become [j+1].  [None] is an index out of range. *)
Fixpoint Area_ring (ring : Line) (isNotHole : R) (n j k : nat) (sum : R)
    : option R :=
  match n with
  | O => Some sum
  | S n' =>
      pj ← ring !! j;
      pk ← ring !! k;
      Area_ring ring isNotHole n' (j + 1) (j + 1)
        (sum + (lon pj - lon pk) * (lat pj + lat pk) * isNotHole)
  end.

(** The outer loop of [Area], [for i := 0; i < len(p); i++], on the rings
    from index [i] on. *)
Fixpoint Area_loop (i : nat) (sum : R) (p : Polygon) : option R :=
  match p with
  | [] => Some sum
  | ring :: rings =>
      let isNotHole := if decide (i > 0)%nat then -1 else 1 in
      sum ← Area_ring ring isNotHole (length ring) 0 (length ring - 1) sum;
      Area_loop (S i) sum rings
  end.

(** [func (r Ruler) Area(p Polygon) float64] *)
Definition Area (r : Ruler) (p : Polygon) : option R :=
  sum ← Area_loop 0 0 p;
  Some ((Rabs sum / 2) * kx r * ky r).

(** ** Bounding boxes *)

(** [func (r Ruler) BufferPoint(p Point, buffer float64) Bbox] *)
Definition BufferPoint (r : Ruler) (p : Point) (buffer : R) : Bbox :=
  let v := buffer / kx r in
  let h := buffer / ky r in
  mkBbox (lon p - h) (lat p - v) (lon p + h) (lat p + v).

(** [func (r Ruler) BufferBbox(b Bbox, buffer float64) Bbox] *)
Definition BufferBbox (r : Ruler) (b : Bbox) (buffer : R) : Bbox :=
  let v := buffer / kx r in
  let h := buffer / ky r in
  mkBbox (swLon b - h) (swLat b - v) (neLon b + h) (neLat b + v).

(** [func (r Ruler) InsideBbox(p Point, b Bbox) bool] *)
Definition InsideBbox (r : Ruler) (p : Point) (b : Bbox) : bool :=
  bool_decide (lon p >= swLon b) &&
  bool_decide (lon p <= neLon b) &&
  bool_decide (lat p >= swLat b) &&
  bool_decide (lat p <= neLat b).

(** ** The earlier draft, [cheapRuler/cheapRuler.go]

    The draft has the same functions under unexported names.  Two of them
    differ from the exported ones and are embedded here. *)
Module Draft.

(** [func (r Ruler) bearing(a Point, b Point) float64]: the differences
    are taken as [a - b]. *)
Definition bearing (r : Ruler) (a b : Point) : R :=
  let dx := fmul (fsub (lon a) (lon b)) (kx r) in
  let dy := fmul (fsub (lat a) (lat b)) (ky r) in
  if decide (toR dx = 0 /\ toR dy = 0) then 0
  else
    let bearing := Atan2 dx dy * 180 / PI in
    if decide (bearing > 180) then bearing - 360 else bearing.

(** The loop of [lineSliceAlong]: no [return] after the point at [stop]. *)
Fixpoint lineSliceAlong_loop (r : Ruler) (start stop sum : R)
    (slice : Line) (l : Line) : Line :=
  match l with
  | p0 :: ((p1 :: _) as tl) =>
      let d := Distance r p0 p1 in
      let sum := sum + d in
      let slice := appendStart start sum d p0 p1 slice in
      let slice :=
        if decide (sum >= stop) then appendStop stop sum d p0 p1 slice
        else slice in
      let slice := appendVertex start sum p1 slice in
      lineSliceAlong_loop r start stop sum slice tl
  | _ => slice
  end.

(** [func (r Ruler) lineSliceAlong(start float64, stop float64, l Line) Line] *)
Definition lineSliceAlong (r : Ruler) (start stop : R) (l : Line) : Line :=
  lineSliceAlong_loop r start stop 0 [] l.

End Draft.

(** ** Vocabulary of the properties

    The notions the statements below are phrased in, defined on the
    embedding. *)

(** The values [sum] takes in the loops over a line: the entry at [i] is
    [sum] right after [sum += d] of iteration [i]. *)
Fixpoint runningSums (r : Ruler) (sum : R) (l : Line) : list R :=
  match l with
  | p0 :: ((p1 :: _) as tl) =>
      let sum := sum + Distance r p0 p1 in
      sum :: runningSums r sum tl
  | _ => []
  end.

(** The slice the scan accumulates while nothing makes it return: the
    point interpolated at [start] on the first segment whose running sum
    exceeds [start], then the end vertex of every segment whose running sum
    exceeds [start]. *)
Fixpoint accumulated (r : Ruler) (start sum : R) (slice : Line) (l : Line)
    : Line :=
  match l with
  | p0 :: ((p1 :: _) as tl) =>
      let d := Distance r p0 p1 in
      let sum := sum + d in
      accumulated r start sum
        (appendVertex start sum p1 (appendStart start sum d p0 p1 slice)) tl
  | _ => slice
  end.

(** Every two consecutive points of the line are at a positive projected
    distance. *)
Definition positiveSegments (r : Ruler) (l : Line) : Prop :=
  forall i p q, l !! i = Some p -> l !! S i = Some q -> 0 < Distance r p q.

(** The candidate of the segment from [p0] to [p1] for the query point
    [p]: the point the loop body computes for that segment, and its squared
    projected distance to [p]. *)
Definition candidate (r : Ruler) (p p0 p1 : Point) : Point * R :=
  let '(x, y, _) := snap r p p0 p1 0 in
  (mkPoint x y, sqDistTo r p x y).

(** The candidate of segment [i] of the line [l]. *)
Definition candidateAt (r : Ruler) (l : Line) (p : Point) (i : nat)
    : option (Point * R) :=
  p0 ← l !! i; p1 ← l !! S i; Some (candidate r p p0 p1).

(** The multiplier [m] that [NewRuler] uses for a unit name. *)
Definition unitScale (unit : string) : R :=
  match Units !! unit with Some scale => scale | None => 1 end.

(** The product [Area] forms from the first and the last point of a
    ring, [(first.lon - last.lon) * (first.lat + last.lat)]; 0 for an empty
    ring. *)
Definition firstLastTerm (ring : Line) : R :=
  match head ring, last ring with
  | Some f, Some la => (lon f - lon la) * (lat f + lat la)
  | _, _ => 0
  end.

(** The sum of these products over the rings from index [i] on, ring 0
    counted positively and every later ring negatively. *)
Fixpoint firstLastSum (i : nat) (p : Polygon) : R :=
  match p with
  | [] => 0
  | ring :: rings =>
      (if decide (i > 0)%nat then -1 else 1) * firstLastTerm ring
      + firstLastSum (S i) rings
  end.

(** Kept by the loop of [PointOnLine] over the line [L]: once a minimum is
    recorded, it is the interpolation on segment [minI] at the clamped
    [minT]. *)
Definition snapInvariant (L : Line) (s : SnapVars) : Prop :=
  minDist s = PosInf \/
  exists p0 p1,
    L !! minI s = Some p0 /\ L !! S (minI s) = Some p1 /\
    mkPoint (minX s) (minY s) = interpolate p0 p1 (Rmax 0 (Rmin 1 (minT s))).

(** * Properties *)

(** ** Proof automation for branches on real comparisons *)

(** Closes a goal whose hypotheses contain a test that linear arithmetic
    refutes. *)
Ltac refute_test :=
  exfalso; simpl in *;
  first
    [ intuition (first [lra | lia | congruence]); fail
    | match goal with
      | H : ~ _ |- _ =>
          apply H; repeat split; first [lra | lia | reflexivity]
      end ].

(** Settles one [decide] of the goal whose test is a closed or linear
    fact: the branch the arithmetic refutes is closed. *)
Ltac settle_decide := case_decide; try refute_test.

Ltac settle_decides := repeat settle_decide.

(** Two points that differ in a coordinate. *)
Ltac Point_neq :=
  let E := fresh in intros E; injection E; intros; lra.

(** Evaluates [PointOnLine] at given numbers: the loop is unrolled, every
    test is settled by linear arithmetic, and so are [Rmax] and [Rmin]. *)
Ltac eval_PointOnLine :=
  unfold PointOnLine, PointOnLine_loop, PointOnLine_body, snap, sqDistTo;
  simpl; settle_decides; simpl;
  unfold Rmax, Rmin; repeat (destruct (Rle_dec _ _); try lra);
  f_equal; first [lra | f_equal; lra].

(** Equality of records of reals, field by field. *)
Ltac Rrecord_eq := f_equal; lra.

(** Equality of lines given by numbers, point by point. *)
Ltac Line_eq := repeat first [reflexivity | lra | apply f_equal2].

(** ** Construction (C6) *)

Lemma Units_kilometers : Units !! "kilometers" = Some 1.
Proof. reflexivity. Qed.

Lemma NewRuler_known (lat : R) (unit : string) (scale : R) :
  Units !! unit = Some scale ->
  (NewRuler lat unit).2 = None.
Proof. intros H. unfold NewRuler. rewrite H. reflexivity. Qed.

Lemma NewRuler_unknown (lat : R) (unit : string) :
  Units !! unit = None ->
  NewRuler lat unit =
    ((NewRuler lat "kilometers").1, Some (unit +:+ " is not a valid unit")).
Proof.
  intros H. unfold NewRuler. rewrite H, Units_kilometers. reflexivity.
Qed.

(** C6.  [NewRuler lat unit] returns a non-nil error exactly when [unit] is
    not a key of [Units]; and whenever the error is non-nil, the ruler that
    comes with it is the ruler [NewRuler lat "kilometers"] returns. *)
Theorem NewRuler_error_iff_unknown_unit (lat : R) (unit : string) :
  (is_Some (NewRuler lat unit).2 <-> unit ∉ dom Units) /\
  (is_Some (NewRuler lat unit).2 ->
   (NewRuler lat unit).1 = (NewRuler lat "kilometers").1).
Proof.
  rewrite not_elem_of_dom.
  destruct (Units !! unit) as [scale|] eqn:E.
  - rewrite (NewRuler_known lat unit scale E).
    split; [split|]; intros H; try discriminate; by destruct H.
  - rewrite (NewRuler_unknown lat unit E). simpl.
    split; [split|]; eauto.
Qed.

Lemma NewRuler_error_iff_unknown_unit_witness :
  is_Some (NewRuler 42 "furlongs").2 /\
  (NewRuler 42 "furlongs").1 = (NewRuler 42 "kilometers").1.
Proof.
  assert (H : is_Some (NewRuler 42 "furlongs").2).
  { apply (proj1 (NewRuler_error_iff_unknown_unit 42 "furlongs")).
    apply not_elem_of_dom. reflexivity. }
  split; [exact H|].
  exact (proj2 (NewRuler_error_iff_unknown_unit 42 "furlongs") H).
Defined.

(** ** Bearing (C3) *)











(** The draft takes the differences the other way round: its [bearing a b]
    is the exported [Bearing b a]. *)
Lemma Draft_bearing_reversed (r : Ruler) (a b : Point) :
  Draft.bearing r a b = Bearing r b a.
Proof. reflexivity. Qed.

(** ** Buffering (C2, C10) *)

(** What the code computes: the longitude edges move by [buffer / ky] and
    the latitude edges by [buffer / kx]. *)
Lemma BufferPoint_unfold (r : Ruler) (p : Point) (buffer : R) :
  BufferPoint r p buffer =
    mkBbox (lon p - buffer / ky r) (lat p - buffer / kx r)
           (lon p + buffer / ky r) (lat p + buffer / kx r).
Proof. reflexivity. Qed.

Lemma BufferBbox_unfold (r : Ruler) (b : Bbox) (buffer : R) :
  BufferBbox r b buffer =
    mkBbox (swLon b - buffer / ky r) (swLat b - buffer / kx r)
           (neLon b + buffer / ky r) (neLat b + buffer / kx r).
Proof. reflexivity. Qed.

(** [Offset] converts the other way round: a longitude displacement is
    divided by [kx] and a latitude displacement by [ky]. *)
Lemma Offset_unfold (r : Ruler) (p : Point) (dx dy : R) :
  Offset r p dx dy = mkPoint (lon p + dx / kx r) (lat p + dy / ky r).
Proof. reflexivity. Qed.

(** C2, at the ruler [kx = 1], [ky = 2] with [buffer = 2].  The claim asks
    for the box [lon -+ buffer/kx], [lat -+ buffer/ky], here
    [-2, -1, 2, 1]; [BufferPoint] of the origin is [-1, -2, 1, 2].  Likewise
    [BufferBbox] of the box [0, 0, 10, 10] is [-1, -2, 11, 12] where the
    claim asks for [-2, -1, 12, 11]. *)
Theorem BufferPoint_exchanges_kx_ky :
  let r := mkRuler 1 2 in
  let p := mkPoint 0 0 in
  let b := mkBbox 0 0 10 10 in
  BufferPoint r p 2 = mkBbox (-1) (-2) 1 2 /\
  BufferPoint r p 2 <>
    mkBbox (lon p - 2 / kx r) (lat p - 2 / ky r)
           (lon p + 2 / kx r) (lat p + 2 / ky r) /\
  BufferBbox r b 2 = mkBbox (-1) (-2) 11 12 /\
  BufferBbox r b 2 <>
    mkBbox (swLon b - 2 / kx r) (swLat b - 2 / ky r)
           (neLon b + 2 / kx r) (neLat b + 2 / ky r).
Proof.
  cbv zeta. unfold BufferPoint, BufferBbox. simpl.
  repeat split.
  - Rrecord_eq.
  - intros H. injection H as H1 H2 H3 H4. lra.
  - Rrecord_eq.
  - intros H. injection H as H1 H2 H3 H4. lra.
Qed.

(** C10.  With positive scale factors and a non-negative buffer, a point
    is inside its own buffered box. *)
Theorem InsideBbox_BufferPoint (r : Ruler) (p : Point) (buffer : R) :
  0 < kx r -> 0 < ky r -> 0 <= buffer ->
  InsideBbox r p (BufferPoint r p buffer) = true.
Proof.
  intros Hkx Hky Hb.
  assert (0 <= buffer / kx r) as Hv.
  { apply Rmult_le_pos; [done|]. left. by apply Rinv_0_lt_compat. }
  assert (0 <= buffer / ky r) as Hh.
  { apply Rmult_le_pos; [done|]. left. by apply Rinv_0_lt_compat. }
  unfold InsideBbox, BufferPoint. simpl.
  rewrite !andb_true_iff, !bool_decide_eq_true. lra.
Qed.

Lemma InsideBbox_BufferPoint_witness :
  InsideBbox (mkRuler 1 2) (mkPoint 3 4) (BufferPoint (mkRuler 1 2) (mkPoint 3 4) 0)
  = true.
Proof.
  apply (InsideBbox_BufferPoint (mkRuler 1 2) (mkPoint 3 4) 0); simpl; lra.
Defined.

Lemma BufferPoint_differs_in_general (r : Ruler) (p : Point) (buffer : R) :
  0 < kx r -> 0 < ky r -> kx r <> ky r -> buffer <> 0 ->
  BufferPoint r p buffer <>
    mkBbox (lon p - buffer / kx r) (lat p - buffer / ky r)
           (lon p + buffer / kx r) (lat p + buffer / ky r).
Proof.
  intros Hkx Hky Hne Hb H. unfold BufferPoint in H.
  injection H as H1 _ _ _.
  assert (buffer / ky r = buffer / kx r) as E by lra.
  apply Hne.
  assert (buffer * kx r = buffer * ky r) as E'.
  { transitivity (buffer / ky r * (kx r * ky r)); [field; lra|].
    rewrite E. field. lra. }
  nra.
Qed.

(** ** Distances along a line (C7) *)

Lemma Distance_nonneg (r : Ruler) (a b : Point) : 0 <= Distance r a b.
Proof. unfold Distance. apply sqrt_pos. Qed.

(** To evaluate [Distance] at given points: a non-negative [d] whose
    square is the sum of the squared projected differences. *)
Lemma Distance_eq (r : Ruler) (a b : Point) (d : R) :
  0 <= d ->
  (lon a - lon b) * kx r * ((lon a - lon b) * kx r) +
  (lat a - lat b) * ky r * ((lat a - lat b) * ky r) = d * d ->
  Distance r a b = d.
Proof. intros Hd E. unfold Distance. rewrite E. by apply sqrt_square. Qed.

Lemma LineDistance_loop_ge (r : Ruler) (l : Line) :
  forall s, s <= LineDistance_loop r s l.
Proof.
  induction l as [|p0 tl IH]; intros s; simpl; [lra|].
  destruct tl as [|p1 tl']; [lra|].
  pose proof (Distance_nonneg r p0 p1).
  etransitivity; [|apply IH]. lra.
Qed.

(** When the whole remaining length stays at or below [dist], the loop of
    [Along] runs to its end without returning. *)
Lemma Along_loop_past_end (r : Ruler) (dist : R) (l : Line) :
  forall s, LineDistance_loop r s l <= dist -> Along_loop r dist s l = None.
Proof.
  induction l as [|p0 tl IH]; intros s H; simpl in *; [done|].
  destruct tl as [|p1 tl']; [done|].
  pose proof (LineDistance_loop_ge r (p1 :: tl') (s + Distance r p0 p1)).
  destruct (decide (s + Distance r p0 p1 > dist)); [lra|].
  by apply IH.
Qed.

Lemma lookup_last_index {A} (l : list A) : l !! (length l - 1)%nat = last l.
Proof. rewrite last_lookup. f_equal. lia. Qed.

(** C7, as the claim states its second half, fails on a line whose length
    is 0 although its end points differ: under the zero ruler [Ruler{}]
    the line from (0,0) to (1,1) has length 0, so [dist = 0] is at least
    the length, and [Along] returns the first point, not the last. *)
Lemma Along_zero_length_returns_first :
  let r := mkRuler 0 0 in
  let l := [mkPoint 0 0; mkPoint 1 1] in
  0 >= LineDistance r l /\
  Along r l 0 = Some (mkPoint 0 0) /\
  last l = Some (mkPoint 1 1) /\
  Along r l 0 <> last l.
Proof.
  cbv zeta. repeat split.
  - unfold LineDistance. simpl.
    rewrite (Distance_eq _ _ _ 0) by (simpl; lra). lra.
  - unfold Along. by settle_decide.
  - unfold Along. settle_decide. simpl. intros [=E _]. lra.
Qed.

(** C7, amended.  On a non-empty line [Along] returns the first point for
    every [dist <= 0], the last point for every [dist > 0] that is at least
    the length of the line, and the single point of a one-point line for
    every [dist]. *)
Theorem Along_first_and_last (r : Ruler) (p0 : Point) (rest : Line) (dist : R) :
  (dist <= 0 -> Along r (p0 :: rest) dist = Some p0) /\
  (0 < dist -> dist >= LineDistance r (p0 :: rest) ->
   Along r (p0 :: rest) dist = last (p0 :: rest)) /\
  (rest = [] -> Along r (p0 :: rest) dist = Some p0).
Proof.
  repeat split.
  - intros H. unfold Along. by rewrite decide_True.
  - intros Hpos Hge. unfold Along. rewrite decide_False by lra.
    rewrite Along_loop_past_end by (unfold LineDistance in Hge; lra).
    apply lookup_last_index.
  - intros ->. unfold Along. by destruct (decide (dist <= 0)).
Qed.

Lemma Along_first_and_last_witness :
  let r := mkRuler 1 1 in
  let l := [mkPoint 0 0; mkPoint 1 0] in
  Along r l (-1) = Some (mkPoint 0 0) /\
  Along r l 2 = Some (mkPoint 1 0) /\
  Along r [mkPoint 0 0] 2 = Some (mkPoint 0 0).
Proof.
  cbv zeta.
  pose proof (Along_first_and_last (mkRuler 1 1) (mkPoint 0 0) [mkPoint 1 0]) as H.
  repeat split.
  - destruct (H (-1)) as (H1 & _). apply H1. lra.
  - destruct (H 2) as (_ & H2 & _). apply H2; [lra|].
    unfold LineDistance. simpl.
    rewrite (Distance_eq _ _ _ 1) by (simpl; lra). lra.
  - by apply (Along_first_and_last (mkRuler 1 1) (mkPoint 0 0) [] 2).
Defined.

(** ** Slicing by distance (C4, C5, C8) *)

(** The loops at a line with a segment in front: one iteration. *)
Lemma runningSums_cons r sum p0 p1 tl :
  runningSums r sum (p0 :: p1 :: tl)
  = sum + Distance r p0 p1
      :: runningSums r (sum + Distance r p0 p1) (p1 :: tl).
Proof. reflexivity. Qed.

Lemma accumulated_cons r start sum slice p0 p1 tl :
  accumulated r start sum slice (p0 :: p1 :: tl)
  = let d := Distance r p0 p1 in
    accumulated r start (sum + d)
      (appendVertex start (sum + d) p1
         (appendStart start (sum + d) d p0 p1 slice))
      (p1 :: tl).
Proof. reflexivity. Qed.

Lemma LineSliceAlong_loop_cons r start stop sum slice p0 p1 tl :
  LineSliceAlong_loop r start stop sum slice (p0 :: p1 :: tl)
  = let d := Distance r p0 p1 in
    if decide (sum + d >= stop)
    then appendStop stop (sum + d) d p0 p1
           (appendStart start (sum + d) d p0 p1 slice)
    else LineSliceAlong_loop r start stop (sum + d)
           (appendVertex start (sum + d) p1
              (appendStart start (sum + d) d p0 p1 slice))
           (p1 :: tl).
Proof. reflexivity. Qed.

Lemma appendStart_extends start sum d p0 p1 slice :
  slice `prefix_of` appendStart start sum d p0 p1 slice.
Proof. unfold appendStart. case_decide; [by apply prefix_app_r|done]. Qed.

Lemma appendStop_extends stop sum d p0 p1 slice :
  slice `prefix_of` appendStop stop sum d p0 p1 slice.
Proof. by apply prefix_app_r. Qed.

Lemma appendVertex_extends start sum p1 slice :
  slice `prefix_of` appendVertex start sum p1 slice.
Proof. unfold appendVertex. case_decide; [by apply prefix_app_r|done]. Qed.

Section SliceAlong.
Variable r : Ruler.
Variables start stop : R.

(** The draft only ever appends to its slice. *)
Lemma Draft_loop_extends (l : Line) :
  forall sum slice,
    slice `prefix_of` Draft.lineSliceAlong_loop r start stop sum slice l.
Proof.
  induction l as [|p0 tl IH]; intros sum slice; simpl; [done|].
  destruct tl as [|p1 tl']; [done|].
  etransitivity; [|apply IH].
  etransitivity; [|apply appendVertex_extends].
  case_decide; [etransitivity; [|apply appendStop_extends]|];
    apply appendStart_extends.
Qed.

Lemma loop_prefix_of_Draft_loop (l : Line) :
  forall sum slice,
    LineSliceAlong_loop r start stop sum slice l
      `prefix_of` Draft.lineSliceAlong_loop r start stop sum slice l.
Proof.
  induction l as [|p0 tl IH]; intros sum slice; simpl; [done|].
  destruct tl as [|p1 tl']; [done|].
  destruct (decide (sum + Distance r p0 p1 >= stop)) as [Hstop|Hstop].
  - etransitivity; [|apply Draft_loop_extends].
    apply appendVertex_extends.
  - apply IH.
Qed.

(** While no running sum reaches [stop], the exported loop and the draft
    loop both compute the accumulated slice. *)
Lemma loop_below_stop (l : Line) :
  forall sum slice,
    Forall (fun s => s < stop) (runningSums r sum l) ->
    LineSliceAlong_loop r start stop sum slice l
      = accumulated r start sum slice l.
Proof.
  induction l as [|p0 tl IH]; intros sum slice H; simpl in *; [done|].
  destruct tl as [|p1 tl']; [done|].
  apply Forall_cons in H as [Hlt H].
  rewrite decide_False by lra.
  by apply IH.
Qed.

Lemma Draft_loop_below_stop (l : Line) :
  forall sum slice,
    Forall (fun s => s < stop) (runningSums r sum l) ->
    Draft.lineSliceAlong_loop r start stop sum slice l
      = accumulated r start sum slice l.
Proof.
  induction l as [|p0 tl IH]; intros sum slice H; simpl in *; [done|].
  destruct tl as [|p1 tl']; [done|].
  apply Forall_cons in H as [Hlt H].
  rewrite decide_False by lra.
  by apply IH.
Qed.

(** The running sums of a line cut after [n] segments. *)
Lemma runningSums_take (l : Line) :
  forall sum n,
    runningSums r sum (take (S n) l) = take n (runningSums r sum l).
Proof.
  induction l as [|p0 tl IH]; intros sum n; [by destruct n|].
  destruct tl as [|p1 tl']; [by destruct n|].
  destruct n as [|n]; [done|].
  change (take (S (S n)) (p0 :: p1 :: tl')) with (p0 :: take (S n) (p1 :: tl')).
  change (take (S n) (p1 :: tl')) with (p1 :: take n tl') at 1.
  cbn [runningSums take]. f_equal.
  change (p1 :: take n tl') with (take (S n) (p1 :: tl')).
  apply IH.
Qed.

(** The loop at the first segment [i] whose running sum [s] reaches
    [stop]: the slice accumulated over the segments before [i], then the
    point at [start] if segment [i] is also the first one past [start],
    then the point interpolated at [stop]; and nothing else. *)
Lemma loop_reaches_stop (l : Line) :
  forall sum slice i s,
    runningSums r sum l !! i = Some s ->
    s >= stop ->
    Forall (fun s' => s' < stop) (take i (runningSums r sum l)) ->
    exists p0 p1,
      l !! i = Some p0 /\ l !! S i = Some p1 /\
      let d := Distance r p0 p1 in
      LineSliceAlong_loop r start stop sum slice l
        = appendStop stop s d p0 p1
            (appendStart start s d p0 p1
               (accumulated r start sum slice (take (S i) l))).
Proof.
  induction l as [|p0 tl IH]; intros sum slice i s Hi Hs Hbefore;
    [done|].
  destruct tl as [|p1 tl']; [done|].
  destruct i as [|i].
  - injection Hi as <-. exists p0, p1. repeat split.
    cbn [take accumulated LineSliceAlong_loop].
    by rewrite decide_True by done.
  - rewrite runningSums_cons in Hi, Hbefore.
    change ((?x :: ?xs) !! S i) with (xs !! i) in Hi.
    rewrite firstn_cons in Hbefore.
    apply Forall_cons in Hbefore as [Hlt Hbefore].
    set (d0 := Distance r p0 p1) in *.
    destruct (IH (sum + d0)
                (appendVertex start (sum + d0) p1
                   (appendStart start (sum + d0) d0 p0 p1 slice))
                i s Hi Hs Hbefore) as (q0 & q1 & Hq0 & Hq1 & E).
    exists q0, q1. repeat split; [done..|].
    rewrite LineSliceAlong_loop_cons. fold d0. cbv zeta in E |- *.
    rewrite decide_False by lra.
    rewrite E.
    change (take (S (S i)) (p0 :: p1 :: tl'))
      with (p0 :: take (S i) (p1 :: tl')).
    change (take (S i) (p1 :: tl')) with (p1 :: take i tl') at 2.
    rewrite accumulated_cons. reflexivity.
Qed.

End SliceAlong.

(** C4.  Let segment [i] be the first one whose running sum [s] reaches
    or exceeds [stop].  Then [LineSliceAlong] returns the slice accumulated
    before segment [i] (with the point at [start], if segment [i] is the
    first past [start]), followed by the point interpolated at [stop] on
    segment [i] as its last point, and the points after segment [i] play no
    part: cutting the line after segment [i] gives the same slice.  If no
    running sum reaches [stop], it returns the slice accumulated over the
    whole line. *)
Theorem LineSliceAlong_returns_at_stop (r : Ruler) (start stop : R) (l : Line) :
  (forall i s,
     runningSums r 0 l !! i = Some s ->
     s >= stop ->
     Forall (fun s' => s' < stop) (take i (runningSums r 0 l)) ->
     exists p0 p1,
       l !! i = Some p0 /\ l !! S i = Some p1 /\
       LineSliceAlong r start stop l
         = appendStart start s (Distance r p0 p1) p0 p1
             (accumulated r start 0 [] (take (S i) l))
           ++ [interpolate p0 p1
                 ((stop - (s - Distance r p0 p1)) / Distance r p0 p1)] /\
       LineSliceAlong r start stop l
         = LineSliceAlong r start stop (take (S (S i)) l)) /\
  (Forall (fun s => s < stop) (runningSums r 0 l) ->
   LineSliceAlong r start stop l = accumulated r start 0 [] l).
Proof.
  split; [|apply loop_below_stop].
  intros i s Hi Hs Hbefore.
  destruct (loop_reaches_stop r start stop l 0 [] i s Hi Hs Hbefore)
    as (p0 & p1 & Hp0 & Hp1 & E).
  exists p0, p1. repeat split; [done..|].
  unfold LineSliceAlong. rewrite E.
  edestruct (loop_reaches_stop r start stop (take (S (S i)) l) 0 [] i s)
    as (q0 & q1 & Hq0 & Hq1 & E').
  - rewrite runningSums_take, lookup_take_lt by lia. done.
  - done.
  - rewrite runningSums_take, take_take.
    by replace (i `min` S i)%nat with i by lia.
  - rewrite lookup_take_lt in Hq0 by lia.
    rewrite lookup_take_lt in Hq1 by lia.
    rewrite Hp0 in Hq0. rewrite Hp1 in Hq1.
    injection Hq0 as <-. injection Hq1 as <-.
    rewrite E', take_take.
    by replace (S i `min` S (S i))%nat with (S i) by lia.
Qed.

Lemma LineSliceAlong_returns_at_stop_witness :
  let r := mkRuler 1 1 in
  let l := [mkPoint 0 0; mkPoint 1 0; mkPoint 2 0] in
  LineSliceAlong r 0 1 l = LineSliceAlong r 0 1 (take 2 l) /\
  LineSliceAlong r 0 5 l = accumulated r 0 0 [] l.
Proof.
  cbv zeta.
  set (r := mkRuler 1 1).
  set (l := [mkPoint 0 0; mkPoint 1 0; mkPoint 2 0]).
  assert (Distance r (mkPoint 0 0) (mkPoint 1 0) = 1) as D01
    by (apply Distance_eq; simpl; lra).
  assert (Distance r (mkPoint 1 0) (mkPoint 2 0) = 1) as D12
    by (apply Distance_eq; simpl; lra).
  split.
  - destruct (proj1 (LineSliceAlong_returns_at_stop r 0 1 l) 0%nat
                (0 + Distance r (mkPoint 0 0) (mkPoint 1 0)))
      as (p0 & p1 & _ & _ & _ & E).
    + reflexivity.
    + rewrite D01. lra.
    + constructor.
    + exact E.
  - apply (proj2 (LineSliceAlong_returns_at_stop r 0 5 l)).
    unfold l. rewrite !runningSums_cons, D01, D12. simpl.
    repeat constructor; lra.
Defined.

(** C5.  The slice of the exported [LineSliceAlong] is a prefix of the
    slice of the draft [lineSliceAlong]; when some running sum reaches
    [stop], that prefix ends with the point interpolated at [stop] and the
    draft only adds points behind it; when no running sum reaches [stop]
    the two slices are equal. *)
Theorem LineSliceAlong_prefix_of_draft (r : Ruler) (start stop : R) (l : Line) :
  LineSliceAlong r start stop l `prefix_of` Draft.lineSliceAlong r start stop l /\
  (forall i s,
     runningSums r 0 l !! i = Some s ->
     s >= stop ->
     Forall (fun s' => s' < stop) (take i (runningSums r 0 l)) ->
     exists p0 p1 front extra,
       l !! i = Some p0 /\ l !! S i = Some p1 /\
       let atStop := interpolate p0 p1
         ((stop - (s - Distance r p0 p1)) / Distance r p0 p1) in
       LineSliceAlong r start stop l = front ++ [atStop] /\
       Draft.lineSliceAlong r start stop l = front ++ [atStop] ++ extra) /\
  (Forall (fun s => s < stop) (runningSums r 0 l) ->
   LineSliceAlong r start stop l = Draft.lineSliceAlong r start stop l).
Proof.
  pose proof (loop_prefix_of_Draft_loop r start stop l 0 []) as Hpre.
  fold (LineSliceAlong r start stop l) in Hpre.
  fold (Draft.lineSliceAlong r start stop l) in Hpre.
  repeat split.
  - exact Hpre.
  - intros i s Hi Hs Hbefore.
    destruct (loop_reaches_stop r start stop l 0 [] i s Hi Hs Hbefore)
      as (p0 & p1 & Hp0 & Hp1 & E).
    destruct Hpre as [extra Hextra].
    exists p0, p1,
      (appendStart start s (Distance r p0 p1) p0 p1
         (accumulated r start 0 [] (take (S i) l))), extra.
    repeat split; [done..|].
    rewrite Hextra. unfold LineSliceAlong. rewrite E.
    unfold appendStop. by rewrite <- app_assoc.
  - intros H. unfold LineSliceAlong, Draft.lineSliceAlong.
    by rewrite loop_below_stop, Draft_loop_below_stop.
Qed.

Lemma LineSliceAlong_prefix_of_draft_witness :
  let r := mkRuler 1 1 in
  let l := [mkPoint 0 0; mkPoint 1 0; mkPoint 2 0] in
  LineSliceAlong r 0 5 l = Draft.lineSliceAlong r 0 5 l /\
  exists front extra,
    LineSliceAlong r 0 1 l = front ++ [mkPoint 1 0] /\
    Draft.lineSliceAlong r 0 1 l = front ++ [mkPoint 1 0] ++ extra.
Proof.
  cbv zeta.
  set (r := mkRuler 1 1).
  set (l := [mkPoint 0 0; mkPoint 1 0; mkPoint 2 0]).
  assert (Distance r (mkPoint 0 0) (mkPoint 1 0) = 1) as D01
    by (apply Distance_eq; simpl; lra).
  assert (Distance r (mkPoint 1 0) (mkPoint 2 0) = 1) as D12
    by (apply Distance_eq; simpl; lra).
  destruct (LineSliceAlong_prefix_of_draft r 0 5 l) as (_ & _ & Hsame).
  destruct (LineSliceAlong_prefix_of_draft r 0 1 l) as (_ & Hstop & _).
  split.
  - apply Hsame.
    unfold l. rewrite !runningSums_cons, D01, D12. simpl.
    repeat constructor; lra.
  - destruct (Hstop 0%nat (0 + Distance r (mkPoint 0 0) (mkPoint 1 0)))
      as (p0 & p1 & front & extra & Hp0 & Hp1 & E1 & E2).
    + reflexivity.
    + rewrite D01. lra.
    + constructor.
    + injection Hp0 as <-. injection Hp1 as <-.
      exists front, extra.
      cbv zeta in E1, E2. rewrite D01 in E1, E2.
      replace (interpolate (mkPoint 0 0) (mkPoint 1 0) ((1 - (0 + 1 - 1)) / 1))
        with (mkPoint 1 0) in E1, E2
        by (unfold interpolate; simpl; f_equal; lra).
      done.
Defined.

(** On the line (0,0), (1,0), (2,0) with [start = 0] and [stop = 1] the
    exported function returns at the end of the first segment, while the
    draft goes on and repeats points. *)
Example Draft_lineSliceAlong_goes_on :
  let r := mkRuler 1 1 in
  let l := [mkPoint 0 0; mkPoint 1 0; mkPoint 2 0] in
  LineSliceAlong r 0 1 l = [mkPoint 0 0; mkPoint 1 0] /\
  Draft.lineSliceAlong r 0 1 l
  = [mkPoint 0 0; mkPoint 1 0; mkPoint 1 0; mkPoint 1 0; mkPoint 2 0].
Proof.
  cbv zeta.
  assert (Distance (mkRuler 1 1) (mkPoint 0 0) (mkPoint 1 0) = 1) as D01
    by (apply Distance_eq; simpl; lra).
  assert (Distance (mkRuler 1 1) (mkPoint 1 0) (mkPoint 2 0) = 1) as D12
    by (apply Distance_eq; simpl; lra).
  unfold LineSliceAlong, Draft.lineSliceAlong. simpl. rewrite D01, D12.
  unfold appendStart, appendStop, appendVertex, interpolate. simpl.
  split; settle_decides; simpl; settle_decides; simpl; Line_eq.
Qed.

(** *** The whole line as a slice (C8) *)

Lemma positiveSegments_head r p0 p1 tl :
  positiveSegments r (p0 :: p1 :: tl) -> 0 < Distance r p0 p1.
Proof. intros H. by apply (H 0%nat). Qed.

Lemma positiveSegments_tail r p0 tl :
  positiveSegments r (p0 :: tl) -> positiveSegments r tl.
Proof. intros H i p q Hp Hq. by apply (H (S i)). Qed.

Lemma interpolate_0 (a b : Point) : interpolate a b 0 = a.
Proof. destruct a. unfold interpolate. simpl. f_equal; lra. Qed.

Lemma interpolate_1 (a b : Point) : interpolate a b 1 = b.
Proof. destruct b. unfold interpolate. simpl. f_equal; lra. Qed.

(** With [start = 0], the first segment puts its own start vertex in
    front of an empty slice and leaves a non-empty slice alone. *)
Lemma appendStart_at_0 (sum d : R) (p0 p1 : Point) (slice : Line) :
  0 <= sum -> 0 < d -> (slice = [] -> sum = 0) ->
  appendStart 0 (sum + d) d p0 p1 slice
  = if decide (length slice = 0%nat) then [p0] else slice.
Proof.
  intros Hsum Hd Hnil. unfold appendStart.
  destruct (decide (length slice = 0%nat)) as [Hlen|Hlen].
  - apply length_zero_iff_nil in Hlen. subst slice. rewrite Hnil by done.
    rewrite decide_True by (split; [lra|done]). simpl.
    replace ((0 - (0 + d - d)) / d) with 0 by (field; lra).
    by rewrite interpolate_0.
  - rewrite decide_False by tauto. done.
Qed.

Lemma loop_whole_line (r : Ruler) (tl : Line) :
  forall p0 p1 sum slice,
    0 <= sum -> (slice = [] -> sum = 0) ->
    positiveSegments r (p0 :: p1 :: tl) ->
    LineSliceAlong_loop r 0 (LineDistance_loop r sum (p0 :: p1 :: tl))
      sum slice (p0 :: p1 :: tl)
    = (if decide (length slice = 0%nat) then [p0] else slice) ++ p1 :: tl.
Proof.
  induction tl as [|p2 tl' IH]; intros p0 p1 sum slice Hsum Hnil Hpos;
    pose proof (positiveSegments_head _ _ _ _ Hpos) as Hd;
    rewrite LineSliceAlong_loop_cons; cbv zeta;
    rewrite appendStart_at_0 by done.
  - change (LineDistance_loop r sum [p0; p1]) with (sum + Distance r p0 p1).
    rewrite decide_True by lra.
    unfold appendStop.
    replace ((sum + Distance r p0 p1 - (sum + Distance r p0 p1 - Distance r p0 p1))
             / Distance r p0 p1) with 1 by (field; lra).
    by rewrite interpolate_1.
  - apply positiveSegments_tail in Hpos.
    pose proof (positiveSegments_head _ _ _ _ Hpos) as Hd1.
    change (LineDistance_loop r sum (p0 :: p1 :: p2 :: tl'))
      with (LineDistance_loop r (sum + Distance r p0 p1) (p1 :: p2 :: tl')).
    pose proof (LineDistance_loop_ge r (p2 :: tl')
                  (sum + Distance r p0 p1 + Distance r p1 p2)) as Hge.
    change (LineDistance_loop r (sum + Distance r p0 p1 + Distance r p1 p2)
              (p2 :: tl'))
      with (LineDistance_loop r (sum + Distance r p0 p1) (p1 :: p2 :: tl'))
      in Hge.
    rewrite decide_False by lra.
    unfold appendVertex. rewrite decide_True by lra.
    rewrite IH; [|lra| |done].
    + rewrite decide_False by (rewrite length_app; simpl; lia).
      by rewrite <- app_assoc.
    + intros E. by apply app_eq_nil in E as [_ ?].
Qed.

(** C8.  On a line of at least two points whose consecutive points are
    all at positive projected distance, slicing from distance 0 to the
    length of the line returns the line itself. *)
Theorem LineSliceAlong_whole_line (r : Ruler) (l : Line) :
  (2 <= length l)%nat ->
  positiveSegments r l ->
  LineSliceAlong r 0 (LineDistance r l) l = l.
Proof.
  intros Hlen Hpos.
  destruct l as [|p0 [|p1 tl]]; simpl in Hlen; [lia..|].
  unfold LineSliceAlong, LineDistance.
  rewrite loop_whole_line by (done || lra).
  by rewrite decide_True.
Qed.

Lemma LineSliceAlong_whole_line_witness :
  let r := mkRuler 1 1 in
  let l := [mkPoint 0 0; mkPoint 1 0; mkPoint 1 2] in
  LineSliceAlong r 0 (LineDistance r l) l = l.
Proof.
  cbv zeta.
  apply (LineSliceAlong_whole_line (mkRuler 1 1)
           [mkPoint 0 0; mkPoint 1 0; mkPoint 1 2]).
  - simpl. lia.
  - intros i p q Hp Hq.
    destruct i as [|[|i]]; simpl in Hp, Hq.
    + injection Hp as <-. injection Hq as <-.
      rewrite (Distance_eq _ _ _ 1) by (simpl; lra). lra.
    + injection Hp as <-. injection Hq as <-.
      rewrite (Distance_eq _ _ _ 2) by (simpl; lra). lra.
    + destruct i; discriminate.
Defined.

(** ** Snapping a point onto a line (C9) *)

(** The point of a candidate does not depend on the value [t] had before
    the iteration. *)
Lemma snap_point (r : Ruler) (p p0 p1 : Point) (t0 : R) :
  let '(x, y, _) := snap r p p0 p1 t0 in
  candidate r p p0 p1 = (mkPoint x y, sqDistTo r p x y).
Proof. unfold candidate, snap. by repeat case_decide. Qed.

Lemma below_trans (a b : R) (m : MinDist) :
  a < b -> below b m -> below a m.
Proof. destruct m; simpl; [done|lra]. Qed.

Lemma not_below_le (a b : R) (m : MinDist) :
  below a m -> ~ below b m -> a < b.
Proof. destruct m; simpl; [tauto|lra]. Qed.

Lemma candidateAt_0 r p p0 p1 tl :
  candidateAt r (p0 :: p1 :: tl) p 0 = Some (candidate r p p0 p1).
Proof. reflexivity. Qed.

Lemma candidateAt_S r p p0 tl j :
  candidateAt r (p0 :: tl) p (S j) = candidateAt r tl p j.
Proof. reflexivity. Qed.

Lemma PointOnLine_loop_cons r p i s p0 p1 tl :
  PointOnLine_loop r p i s (p0 :: p1 :: tl)
  = PointOnLine_loop r p (S i) (PointOnLine_body r p i p0 p1 s) (p1 :: tl).
Proof. reflexivity. Qed.

(** What the loop of [PointOnLine] does to the minimum it is given.
    Either no candidate of the remaining segments is below it, and it is
    left as it was; or it becomes the candidate of the first remaining
    segment among those of least squared distance. *)
Lemma PointOnLine_loop_min (r : Ruler) (p : Point) (l : Line) :
  forall i s,
    let s' := PointOnLine_loop r p i s l in
    (minDist s' = minDist s /\ minX s' = minX s /\ minY s' = minY s /\
     minI s' = minI s /\
     forall j c d, candidateAt r l p j = Some (c, d) -> ~ below d (minDist s))
    \/
    (exists k d,
       minI s' = (i + k)%nat /\
       candidateAt r l p k = Some (mkPoint (minX s') (minY s'), d) /\
       minDist s' = Finite d /\
       below d (minDist s) /\
       forall j c dj, candidateAt r l p j = Some (c, dj) ->
                      d <= dj /\ ((j < k)%nat -> d < dj)).
Proof.
  induction l as [|p0 tl IH]; intros i s; [left; by split_and!|].
  destruct tl as [|p1 tl'].
  { left. split_and!; [done..|]. intros [|j]; discriminate. }
  rewrite PointOnLine_loop_cons. cbv zeta.
  specialize (IH (S i) (PointOnLine_body r p i p0 p1 s)). cbv zeta in IH.
  set (s' := PointOnLine_loop r p (S i) (PointOnLine_body r p i p0 p1 s)
               (p1 :: tl')) in *.
  pose proof (snap_point r p p0 p1 (tvar s)) as Hc.
  unfold PointOnLine_body in IH.
  destruct (snap r p p0 p1 (tvar s)) as [[x y] t1].
  destruct (decide (below (sqDistTo r p x y) (minDist s))) as [Hb|Hb];
    simpl in IH.
  - (* this segment becomes the minimum *)
    right. destruct IH as [(Hd & Hx & Hy & Hi & Hrest)
                          |(k & d & Hi & Hk & Hd & Hlt & Hrest)].
    + exists 0%nat, (sqDistTo r p x y).
      rewrite Hx, Hy, Hi, Hd, candidateAt_0, Hc, Nat.add_0_r.
      split_and!; [done..|].
      intros [|j] c dj Hj.
      * rewrite candidateAt_0, Hc in Hj. injection Hj as <- <-.
        split; [lra|lia].
      * rewrite candidateAt_S in Hj. apply Hrest in Hj.
        split; [lra|lia].
    + exists (S k), d. rewrite candidateAt_S.
      split_and!; [lia|done|done|by eapply below_trans|].
      intros [|j] c dj Hj.
      * rewrite candidateAt_0, Hc in Hj. injection Hj as <- <-.
        split; [lra|done].
      * rewrite candidateAt_S in Hj. apply Hrest in Hj as [? ?].
        split; [done|]. intros ?. apply H0. lia.
  - (* the minimum so far stays *)
    destruct IH as [(Hd & Hx & Hy & Hi & Hrest)
                   |(k & d & Hi & Hk & Hd & Hlt & Hrest)].
    + left. split_and!; [done..|].
      intros [|j] c dj Hj.
      * rewrite candidateAt_0, Hc in Hj. by injection Hj as <- <-.
      * rewrite candidateAt_S in Hj. by eapply Hrest.
    + right. exists (S k), d. rewrite candidateAt_S.
      split_and!; [lia|done..|].
      intros [|j] c dj Hj.
      * rewrite candidateAt_0, Hc in Hj. injection Hj as <- <-.
        pose proof (not_below_le _ _ _ Hlt Hb). split; [lra|done].
      * rewrite candidateAt_S in Hj. apply Hrest in Hj as [? ?].
        split; [done|]. intros ?. apply H0. lia.
Qed.

(** C9.  On a line of at least two points, [PointOnLine] returns the
    candidate point and the index of a segment whose squared projected
    distance to [p] is least among all segments and strictly less than that
    of every earlier segment; and the returned [t] lies in [0, 1]. *)
Theorem PointOnLine_first_minimum (r : Ruler) (l : Line) (p : Point) :
  (2 <= length l)%nat ->
  let res := PointOnLine r l p in
  (exists d,
     candidateAt r l p (index res) = Some (point res, d) /\
     forall j c dj, candidateAt r l p j = Some (c, dj) ->
                    d <= dj /\ ((j < index res)%nat -> d < dj)) /\
  0 <= t res <= 1.
Proof.
  intros Hlen res. split.
  - destruct (PointOnLine_loop_min r p l 0 (mkSnapVars PosInf 0 0 0 0 0))
      as [(_ & _ & _ & _ & Hnone)|(k & d & Hi & Hk & _ & _ & Hmin)].
    + destruct l as [|p0 [|p1 tl]]; simpl in Hlen; [lia..|].
      destruct (candidate r p p0 p1) as [c d] eqn:E.
      exfalso.
      apply (Hnone 0%nat c d); [by rewrite candidateAt_0, E|exact I].
    + exists d. subst res. unfold PointOnLine. simpl in *.
      rewrite Hi. by split.
  - subst res. unfold PointOnLine. simpl. split.
    + apply Rmax_l.
    + apply Rmax_lub; [lra|apply Rmin_l].
Qed.

Lemma PointOnLine_first_minimum_witness :
  let res := PointOnLine (mkRuler 1 1)
               [mkPoint 0 0; mkPoint 1 0; mkPoint 2 0] (mkPoint 1 1) in
  (exists d,
     candidateAt (mkRuler 1 1) [mkPoint 0 0; mkPoint 1 0; mkPoint 2 0]
       (mkPoint 1 1) (index res) = Some (point res, d) /\
     forall j c dj,
       candidateAt (mkRuler 1 1) [mkPoint 0 0; mkPoint 1 0; mkPoint 2 0]
         (mkPoint 1 1) j = Some (c, dj) ->
       d <= dj /\ ((j < index res)%nat -> d < dj)) /\
  0 <= t res <= 1.
Proof.
  apply (PointOnLine_first_minimum (mkRuler 1 1)
           [mkPoint 0 0; mkPoint 1 0; mkPoint 2 0] (mkPoint 1 1)).
  simpl. lia.
Defined.

(** Two segments at the same least distance: the query point (1,1) is at
    squared distance 1 from both segments of the line (0,0), (1,0), (2,0),
    and the first segment is returned. *)
Example PointOnLine_tie_keeps_first :
  PointOnLine (mkRuler 1 1) [mkPoint 0 0; mkPoint 1 0; mkPoint 2 0]
    (mkPoint 1 1)
  = mkPointOnLine (mkPoint 1 0) 0 1.
Proof. eval_PointOnLine. Qed.

(** ** Slicing between two points (C1) *)

(** The test of [LineSlice] spelled out: the snapped points are exchanged
    when the first has the greater index, or the same index and the
    smaller [t]. *)
Lemma swapped_iff (p1 p2 : PointOnLine_t) :
  swapped p1 p2 <->
  (index p2 < index p1)%nat \/ (index p1 = index p2 /\ t p1 < t p2).
Proof. unfold swapped, gt. tauto. Qed.

Lemma PointOnLine_quarter :
  PointOnLine (mkRuler 1 1) [mkPoint 0 0; mkPoint 4 0] (mkPoint 1 0)
  = mkPointOnLine (mkPoint 1 0) 0 (1 / 4).
Proof. eval_PointOnLine. Qed.

Lemma PointOnLine_three_quarters :
  PointOnLine (mkRuler 1 1) [mkPoint 0 0; mkPoint 4 0] (mkPoint 3 0)
  = mkPointOnLine (mkPoint 3 0) 0 (3 / 4).
Proof. eval_PointOnLine. Qed.

(** C1, on the one-segment line from (0,0) to (4,0) with [start = (1,0)]
    and [end = (3,0)].  Both snap onto segment 0, [start] at [t = 1/4] and
    [end] at [t = 3/4], so the snapped start lies before the snapped end
    and the claim asks for no exchange and a slice beginning at (1,0).
    [LineSlice] exchanges them and returns the slice (3,0), (1,0), which
    begins at the later snap point. *)
Theorem LineSlice_same_segment_runs_backwards :
  let r := mkRuler 1 1 in
  let l := [mkPoint 0 0; mkPoint 4 0] in
  let start := mkPoint 1 0 in
  let end_ := mkPoint 3 0 in
  index (PointOnLine r l start) = index (PointOnLine r l end_) /\
  t (PointOnLine r l start) < t (PointOnLine r l end_) /\
  swapped (PointOnLine r l start) (PointOnLine r l end_) /\
  LineSlice r start end_ l = Some [mkPoint 3 0; mkPoint 1 0] /\
  LineSlice r end_ start l = Some [mkPoint 3 0; mkPoint 1 0].
Proof.
  cbv zeta. unfold LineSlice.
  rewrite PointOnLine_quarter, PointOnLine_three_quarters.
  split_and!.
  - done.
  - simpl. lra.
  - right. simpl. split; [done|lra].
  - rewrite decide_True by (right; simpl; split; [done|lra]).
    simpl.
    rewrite (decide_False (P := _ /\ _)) by (intros [_ ?]; lia).
    rewrite decide_True by Point_neq.
    done.
  - rewrite decide_False
      by (unfold swapped; simpl; intros [?|[_ ?]]; [lia|lra]).
    simpl.
    rewrite (decide_False (P := _ /\ _)) by (intros [_ ?]; lia).
    rewrite decide_True by Point_neq.
    done.
Qed.

(** * Further properties of the package *)

(** ** Distances between points *)

Lemma sum_squares_nonneg (x y : R) : 0 <= x * x + y * y.
Proof. nra. Qed.

Lemma sum_squares_zero (x y : R) : x * x + y * y = 0 -> x = 0 /\ y = 0.
Proof. intros H. split; nra. Qed.

Lemma Distance_comm (r : Ruler) (a b : Point) :
  Distance r a b = Distance r b a.
Proof. unfold Distance. f_equal. ring. Qed.

(** [Distance] does not depend on the order of its points. *)
Theorem Distance_sym (r : Ruler) (a b : Point) :
  Distance r a b = Distance r b a.
Proof. apply Distance_comm. Qed.

Lemma Distance_zero_same (r : Ruler) (a b : Point) :
  kx r <> 0 -> ky r <> 0 -> Distance r a b = 0 -> a = b.
Proof.
  intros Hkx Hky H. unfold Distance in H.
  apply sqrt_eq_0 in H; [|apply sum_squares_nonneg].
  apply sum_squares_zero in H as [Hx Hy].
  apply Rmult_integral in Hx as [Hx|Hx]; [|done].
  apply Rmult_integral in Hy as [Hy|Hy]; [|done].
  destruct a, b. simpl in *. f_equal; lra.
Qed.

Lemma Distance_same (r : Ruler) (a : Point) : Distance r a a = 0.
Proof. apply Distance_eq; lra. Qed.

(** Under a ruler whose scale factors are not zero, two points are at
    distance 0 exactly when they are the same point. *)
Theorem Distance_zero_iff (r : Ruler) (a b : Point) :
  kx r <> 0 -> ky r <> 0 ->
  (Distance r a b = 0 <-> a = b).
Proof.
  intros Hkx Hky. split.
  - by apply Distance_zero_same.
  - intros ->. apply Distance_same.
Qed.

Lemma Distance_zero_iff_witness :
  Distance (mkRuler 1 2) (mkPoint 3 4) (mkPoint 3 4) = 0 <->
  mkPoint 3 4 = mkPoint 3 4.
Proof.
  apply (Distance_zero_iff (mkRuler 1 2) (mkPoint 3 4) (mkPoint 3 4));
    simpl; lra.
Defined.

(** The length of the sum of two plane vectors is at most the sum of
    their lengths. *)
Lemma sqrt_sum_squares_triangle (u v u' v' : R) :
  sqrt ((u + u') * (u + u') + (v + v') * (v + v'))
  <= sqrt (u * u + v * v) + sqrt (u' * u' + v' * v').
Proof.
  set (A := sqrt (u * u + v * v)).
  set (B := sqrt (u' * u' + v' * v')).
  assert (0 <= A) as HA by apply sqrt_pos.
  assert (0 <= B) as HB by apply sqrt_pos.
  assert (A * A = u * u + v * v) as HA2 by (apply sqrt_sqrt; nra).
  assert (B * B = u' * u' + v' * v') as HB2 by (apply sqrt_sqrt; nra).
  assert (u * u' + v * v' <= A * B) as Hcs.
  { clearbody A B.
    destruct (Rle_dec (u * u' + v * v') (A * B)) as [|Hn]; [done|].
    exfalso. apply Rnot_le_lt in Hn.
    assert (0 <= A * B) as Hab by (by apply Rmult_le_pos).
    assert ((A * B) * (A * B) < (u * u' + v * v') * (u * u' + v * v'))
      as Hsq by (apply Rmult_le_0_lt_compat; done).
    assert ((A * B) * (A * B) = (u * u + v * v) * (u' * u' + v' * v'))
      as E by (rewrite <- HA2, <- HB2; ring).
    pose proof (Rle_0_sqr (u * v' - v * u')) as Hdet. unfold Rsqr in Hdet.
    replace ((u * u + v * v) * (u' * u' + v' * v'))
      with ((u * u' + v * v') * (u * u' + v * v')
            + (u * v' - v * u') * (u * v' - v * u')) in E by ring.
    lra. }
  rewrite <- (sqrt_square (A + B)) by lra.
  apply sqrt_le_1_alt.
  replace ((A + B) * (A + B)) with (A * A + B * B + 2 * (A * B)) by ring.
  rewrite HA2, HB2.
  replace ((u + u') * (u + u') + (v + v') * (v + v'))
    with (u * u + v * v + (u' * u' + v' * v') + 2 * (u * u' + v * v'))
    by ring.
  lra.
Qed.

(** [Distance] satisfies the triangle inequality. *)
Theorem Distance_triangle (r : Ruler) (a b c : Point) :
  Distance r a c <= Distance r a b + Distance r b c.
Proof.
  unfold Distance.
  replace ((lon a - lon c) * kx r)
    with ((lon a - lon b) * kx r + (lon b - lon c) * kx r) by ring.
  replace ((lat a - lat c) * ky r)
    with ((lat a - lat b) * ky r + (lat b - lat c) * ky r) by ring.
  apply sqrt_sum_squares_triangle.
Qed.

Lemma Distance_to_Offset (r : Ruler) (p : Point) (dx dy : R) :
  kx r <> 0 -> ky r <> 0 ->
  Distance r p (Offset r p dx dy) = sqrt (dx * dx + dy * dy).
Proof.
  intros Hkx Hky. unfold Distance, Offset. simpl. f_equal. field. done.
Qed.

(** Moving a point by [dx], [dy] ruler units puts it at distance
    [sqrt (dx^2 + dy^2)] from where it was. *)
Theorem Distance_Offset (r : Ruler) (p : Point) (dx dy : R) :
  kx r <> 0 -> ky r <> 0 ->
  Distance r p (Offset r p dx dy) = sqrt (dx * dx + dy * dy).
Proof. apply Distance_to_Offset. Qed.

Lemma Distance_Offset_witness :
  Distance (mkRuler 2 3) (mkPoint 0 0) (Offset (mkRuler 2 3) (mkPoint 0 0) 3 4)
  = sqrt (3 * 3 + 4 * 4).
Proof.
  apply (Distance_Offset (mkRuler 2 3) (mkPoint 0 0) 3 4); simpl; lra.
Defined.

(** The destination at distance [d >= 0] and any bearing is at distance
    [d] from the starting point. *)
Theorem Distance_Destination (r : Ruler) (p : Point) (d b : R) :
  kx r <> 0 -> ky r <> 0 -> 0 <= d ->
  Distance r p (Destination r p d b) = d.
Proof.
  intros Hkx Hky Hd. unfold Destination.
  rewrite Distance_to_Offset by done.
  set (a := b * PI / 180).
  pose proof (sin2_cos2 a) as H. unfold Rsqr in H.
  replace (sin a * d * (sin a * d) + cos a * d * (cos a * d))
    with ((sin a * sin a + cos a * cos a) * (d * d)) by ring.
  rewrite H, Rmult_1_l. by apply sqrt_square.
Qed.

Lemma Distance_Destination_witness :
  Distance (mkRuler 2 3) (mkPoint 1 1)
    (Destination (mkRuler 2 3) (mkPoint 1 1) 5 30) = 5.
Proof.
  apply (Distance_Destination (mkRuler 2 3) (mkPoint 1 1) 5 30); simpl; lra.
Defined.

(** ** Rulers made by [NewRuler] *)

(** No scale factor of the unit table is negative, and the only one that
    is not positive is the 0 of "nauticalmiles". *)
Lemma Units_scale (unit : string) (scale : R) :
  Units !! unit = Some scale ->
  0 <= scale /\ (unit <> "nauticalmiles" -> 0 < scale).
Proof.
  unfold Units. intros H.
  repeat (rewrite lookup_insert in H; case_decide;
          [injection H as <-; split; [lra|intros ?; first [lra|congruence]]|]).
  by rewrite lookup_empty in H.
Qed.

Lemma unitScale_positive (unit : string) :
  unit <> "nauticalmiles" -> 0 < unitScale unit.
Proof.
  intros Hne. unfold unitScale. destruct (Units !! unit) eqn:E; [|lra].
  by apply (Units_scale unit).
Qed.

Lemma NewRuler_factors (lat : R) (unit : string) :
  let c := cos (lat * PI / 180) in
  kx (NewRuler lat unit).1
  = unitScale unit
    * (c * (111.69938 - 0.3806 * (c * c) + 0.00192 * (c * c * c * c))) /\
  ky (NewRuler lat unit).1
  = unitScale unit
    * (111.69934 - 1.1417 * (c * c) + 0.0096 * (c * c * c * c)).
Proof.
  unfold NewRuler, unitScale.
  destruct (Units !! unit); simpl; split; nra.
Qed.

(** For the unit name "nauticalmiles" [NewRuler] returns, without an
    error, the ruler whose two factors are 0, at every latitude.  For every
    other unit name, known or not, the latitude factor [ky] is positive at
    every latitude, and the longitude factor [kx] is positive at every
    latitude strictly between -90 and 90 degrees. *)
Theorem NewRuler_positive_factors (lat : R) (unit : string) :
  NewRuler lat "nauticalmiles" = (mkRuler 0 0, None) /\
  (unit <> "nauticalmiles" ->
   0 < ky (NewRuler lat unit).1 /\
   (-90 < lat < 90 -> 0 < kx (NewRuler lat unit).1)).
Proof.
  split.
  { unfold NewRuler.
    change (Units !! "nauticalmiles") with (Some 0).
    cbv zeta iota beta. f_equal. f_equal; apply Rmult_0_l. }
  intros Hne.
  destruct (NewRuler_factors lat unit) as [Hkx Hky].
  cbv zeta in Hkx, Hky. rewrite Hkx, Hky. clear Hkx Hky.
  pose proof (unitScale_positive unit Hne) as Hm.
  pose proof (COS_bound (lat * PI / 180)) as [Hlo Hhi].
  set (c := cos (lat * PI / 180)) in *.
  assert (0 <= c * c <= 1) as Hc2 by nra.
  assert (0 <= c * c * c * c) as Hc4.
  { replace (c * c * c * c) with ((c * c) * (c * c)) by ring. nra. }
  split.
  - apply Rmult_lt_0_compat; [done|]. lra.
  - intros [Hl Hu].
    assert (0 < c) as Hc.
    { pose proof PI_RGT_0. apply cos_gt_0; nra. }
    apply Rmult_lt_0_compat; [done|].
    apply Rmult_lt_0_compat; [done|]. lra.
Qed.

Lemma NewRuler_positive_factors_witness :
  0 < kx (NewRuler 42 "miles").1.
Proof.
  destruct (NewRuler_positive_factors 42 "miles") as [_ H].
  apply H; [discriminate|lra].
Defined.

(** Scaling both factors of a ruler by [m >= 0] scales its distances. *)
Lemma Distance_scaled (r r' : Ruler) (a b : Point) (m : R) :
  0 <= m -> kx r = m * kx r' -> ky r = m * ky r' ->
  Distance r a b = m * Distance r' a b.
Proof.
  intros Hm Hkx Hky. unfold Distance. rewrite Hkx, Hky.
  rewrite <- (sqrt_square m) at 5 by done.
  rewrite <- sqrt_mult_alt by nra.
  f_equal. ring.
Qed.

(** A ruler in a known unit measures [scale] times what the kilometers
    ruler of the same latitude measures. *)
Theorem NewRuler_unit_scales_Distance (lat : R) (unit : string) (scale : R)
    (a b : Point) :
  Units !! unit = Some scale ->
  Distance (NewRuler lat unit).1 a b
  = scale * Distance (NewRuler lat "kilometers").1 a b.
Proof.
  intros H. destruct (Units_scale _ _ H) as [Hnn _].
  apply Distance_scaled; [done| |];
    unfold NewRuler; rewrite H, Units_kilometers; simpl;
    by rewrite Rmult_1_l.
Qed.

Lemma NewRuler_unit_scales_Distance_witness :
  Distance (NewRuler 42 "meters").1 (mkPoint 0 0) (mkPoint 1 1)
  = 1000 * Distance (NewRuler 42 "kilometers").1 (mkPoint 0 0) (mkPoint 1 1).
Proof.
  apply (NewRuler_unit_scales_Distance 42 "meters" 1000
           (mkPoint 0 0) (mkPoint 1 1)).
  reflexivity.
Defined.

(** The ruler of a latitude and the ruler of the opposite latitude are
    the same. *)
Theorem NewRuler_opposite_latitude (lat : R) (unit : string) :
  NewRuler (- lat) unit = NewRuler lat unit.
Proof.
  unfold NewRuler.
  replace (- lat * PI / 180) with (- (lat * PI / 180)) by (unfold Rdiv; ring).
  by rewrite cos_neg.
Qed.

(** ** Bounding boxes *)

(** A point inside a box stays inside when the box is buffered by a
    non-negative margin under positive scale factors. *)
Theorem InsideBbox_BufferBbox (r : Ruler) (p : Point) (b : Bbox) (buffer : R) :
  0 < kx r -> 0 < ky r -> 0 <= buffer ->
  InsideBbox r p b = true ->
  InsideBbox r p (BufferBbox r b buffer) = true.
Proof.
  intros Hkx Hky Hb.
  assert (0 <= buffer / kx r) as Hv.
  { apply Rmult_le_pos; [done|]. left. by apply Rinv_0_lt_compat. }
  assert (0 <= buffer / ky r) as Hh.
  { apply Rmult_le_pos; [done|]. left. by apply Rinv_0_lt_compat. }
  unfold InsideBbox, BufferBbox. simpl.
  rewrite !andb_true_iff, !bool_decide_eq_true. lra.
Qed.

Lemma InsideBbox_BufferBbox_witness :
  InsideBbox (mkRuler 1 2) (mkPoint 1 1)
    (BufferBbox (mkRuler 1 2) (mkBbox 0 0 2 2) 3) = true.
Proof.
  apply (InsideBbox_BufferBbox (mkRuler 1 2) (mkPoint 1 1) (mkBbox 0 0 2 2) 3);
    simpl; try lra.
  unfold InsideBbox. simpl.
  rewrite !andb_true_iff, !bool_decide_eq_true. lra.
Defined.

(** Buffering a box twice is buffering it once by the sum of the
    margins. *)
Theorem BufferBbox_twice (r : Ruler) (b : Bbox) (x y : R) :
  kx r <> 0 -> ky r <> 0 ->
  BufferBbox r (BufferBbox r b x) y = BufferBbox r b (x + y).
Proof.
  intros Hkx Hky. unfold BufferBbox. simpl. f_equal; field; done.
Qed.

Lemma BufferBbox_twice_witness :
  BufferBbox (mkRuler 1 2) (BufferBbox (mkRuler 1 2) (mkBbox 0 0 2 2) 1) 3
  = BufferBbox (mkRuler 1 2) (mkBbox 0 0 2 2) (1 + 3).
Proof.
  apply (BufferBbox_twice (mkRuler 1 2) (mkBbox 0 0 2 2) 1 3); simpl; lra.
Defined.

(** The four corners of a box with [west <= east] and [south <= north]
    are inside the box: the comparisons are inclusive. *)
Theorem InsideBbox_corners (r : Ruler) (b : Bbox) :
  swLon b <= neLon b -> swLat b <= neLat b ->
  InsideBbox r (mkPoint (swLon b) (swLat b)) b = true /\
  InsideBbox r (mkPoint (swLon b) (neLat b)) b = true /\
  InsideBbox r (mkPoint (neLon b) (swLat b)) b = true /\
  InsideBbox r (mkPoint (neLon b) (neLat b)) b = true.
Proof.
  intros Hlon Hlat. unfold InsideBbox. simpl.
  rewrite !andb_true_iff, !bool_decide_eq_true. lra.
Qed.

Lemma InsideBbox_corners_witness :
  InsideBbox (mkRuler 1 1) (mkPoint 0 0) (mkBbox 0 0 2 3) = true.
Proof.
  apply (InsideBbox_corners (mkRuler 1 1) (mkBbox 0 0 2 3)); simpl; lra.
Defined.

(** ** Bearing and destination *)




(** ** Length of a line *)

Lemma LineDistance_loop_shift (r : Ruler) (l : Line) :
  forall s, LineDistance_loop r s l = s + LineDistance r l.
Proof.
  unfold LineDistance.
  induction l as [|p0 tl IH]; intros s; simpl; [lra|].
  destruct tl as [|p1 tl']; [lra|].
  rewrite (IH (s + _)), (IH (0 + _)). lra.
Qed.

Lemma LineDistance_cons (r : Ruler) (p0 p1 : Point) (tl : Line) :
  LineDistance r (p0 :: p1 :: tl)
  = Distance r p0 p1 + LineDistance r (p1 :: tl).
Proof.
  change (LineDistance r (p0 :: p1 :: tl))
    with (LineDistance_loop r (0 + Distance r p0 p1) (p1 :: tl)).
  rewrite LineDistance_loop_shift. lra.
Qed.

Lemma LineDistance_single (r : Ruler) (p : Point) : LineDistance r [p] = 0.
Proof. reflexivity. Qed.

Lemma LineDistance_nonneg (r : Ruler) (l : Line) : 0 <= LineDistance r l.
Proof. apply LineDistance_loop_ge. Qed.

Lemma LineDistance_app_vertex (r : Ruler) (l1 l2 : Line) (p : Point) :
  LineDistance r (l1 ++ p :: l2)
  = LineDistance r (l1 ++ [p]) + LineDistance r (p :: l2).
Proof.
  induction l1 as [|p0 l1 IH]; simpl.
  - rewrite LineDistance_single. lra.
  - destruct l1 as [|p1 l1']; simpl in *.
    + rewrite !LineDistance_cons, LineDistance_single. lra.
    + rewrite !LineDistance_cons, IH. lra.
Qed.

(** A line cut at one of its vertices: the lengths of the two parts, which
    share that vertex, add up to the length of the line. *)
Theorem LineDistance_split (r : Ruler) (l1 l2 : Line) (p : Point) :
  LineDistance r (l1 ++ p :: l2)
  = LineDistance r (l1 ++ [p]) + LineDistance r (p :: l2).
Proof. apply LineDistance_app_vertex. Qed.

(** Appending a point to a line adds its distance from the last point. *)
Lemma LineDistance_snoc (r : Ruler) (l : Line) (p q : Point) :
  last l = Some p ->
  LineDistance r (l ++ [q]) = LineDistance r l + Distance r p q.
Proof.
  intros Hlast.
  destruct (last_Some l p) as [[l' ->] _]; [done|].
  rewrite <- app_assoc. simpl.
  rewrite (LineDistance_app_vertex r l' [q] p).
  rewrite LineDistance_cons, LineDistance_single. lra.
Qed.

(** A line and the same line walked backwards have the same length. *)
Theorem LineDistance_reverse (r : Ruler) (l : Line) :
  LineDistance r (reverse l) = LineDistance r l.
Proof.
  induction l as [|p0 tl IH]; [done|].
  rewrite reverse_cons.
  destruct tl as [|p1 tl'].
  - reflexivity.
  - rewrite (LineDistance_snoc r _ p1 p0).
    + rewrite IH, LineDistance_cons, (Distance_comm r p1 p0). lra.
    + rewrite reverse_cons. apply last_snoc.
Qed.

(** The length of a line is never negative, and a line of fewer than two
    points has length 0. *)
Theorem LineDistance_short_line (r : Ruler) (l : Line) :
  0 <= LineDistance r l /\
  ((length l < 2)%nat -> LineDistance r l = 0).
Proof.
  split; [apply LineDistance_nonneg|].
  destruct l as [|p0 [|p1 tl]]; simpl; intros H; try done. lia.
Qed.

Lemma LineDistance_short_line_witness :
  LineDistance (mkRuler 1 1) [mkPoint 3 4] = 0.
Proof.
  apply (proj2 (LineDistance_short_line (mkRuler 1 1) [mkPoint 3 4])).
  simpl. lia.
Defined.

(** ** Points along a line *)

(** Two points interpolated on the same segment are apart by the
    difference of their parameters times the length of the segment. *)
Lemma Distance_interpolate (r : Ruler) (a b : Point) (s t : R) :
  Distance r (interpolate a b s) (interpolate a b t)
  = Rabs (t - s) * Distance r a b.
Proof.
  unfold Distance, interpolate. simpl.
  rewrite <- sqrt_Rsqr_abs. unfold Rsqr.
  rewrite <- sqrt_mult_alt by apply (Rle_0_sqr (t - s)).
  f_equal. ring.
Qed.

Lemma Distance_interpolate_l (r : Ruler) (a b : Point) (t : R) :
  0 <= t -> Distance r a (interpolate a b t) = t * Distance r a b.
Proof.
  intros Ht. rewrite <- (interpolate_0 a b) at 1.
  rewrite Distance_interpolate, Rabs_right; [f_equal|]; lra.
Qed.

Lemma Distance_interpolate_r (r : Ruler) (a b : Point) (t : R) :
  t <= 1 -> Distance r (interpolate a b t) b = (1 - t) * Distance r a b.
Proof.
  intros Ht. rewrite <- (interpolate_1 a b) at 2.
  rewrite Distance_interpolate, Rabs_right; [f_equal|]; lra.
Qed.

(** [Along] panics on the empty line and on no other line. *)
Theorem Along_panics_iff_empty (r : Ruler) (l : Line) (dist : R) :
  Along r l dist = None <-> l = [].
Proof.
  split.
  - destruct l as [|p0 tl]; [done|]. unfold Along.
    destruct (decide (dist <= 0)); [done|].
    destruct (Along_loop r dist 0 (p0 :: tl)); [done|].
    rewrite lookup_last_index.
    intros H. apply last_None in H. done.
  - intros ->. unfold Along. by case_decide.
Qed.

Lemma last_take_S {A} (l : list A) (i : nat) (x : A) :
  l !! i = Some x -> last (take (S i) l) = Some x.
Proof.
  intros H. pose proof (lookup_lt_Some _ _ _ H) as Hlt.
  rewrite last_lookup, length_take, lookup_take_lt by lia.
  by replace (Init.Nat.pred (S i `min` length l)) with i by lia.
Qed.

(** The loop of [Along] when the distance asked for lies inside the part
    of the line still ahead. *)
Lemma Along_loop_inside (r : Ruler) (dist : R) (l : Line) :
  forall s,
    s <= dist -> dist < LineDistance_loop r s l ->
    exists i p0 p1 t,
      l !! i = Some p0 /\ l !! S i = Some p1 /\ 0 <= t < 1 /\
      Along_loop r dist s l = Some (interpolate p0 p1 t) /\
      s + LineDistance r (take (S i) l) + t * Distance r p0 p1 = dist.
Proof.
  induction l as [|p0 tl IH]; intros s Hs Hd; simpl in Hd; [lra|].
  destruct tl as [|p1 tl']; [lra|].
  pose proof (Distance_nonneg r p0 p1) as Hnn.
  cbn [Along_loop]. cbv zeta.
  destruct (decide (s + Distance r p0 p1 > dist)) as [Hgt|Hle].
  - exists 0%nat, p0, p1, ((dist - (s + Distance r p0 p1 - Distance r p0 p1))
                           / Distance r p0 p1).
    assert (0 < Distance r p0 p1) as Hpos by lra.
    replace (dist - (s + Distance r p0 p1 - Distance r p0 p1))
      with (dist - s) by lra.
    split_and!; try done.
    + apply Rmult_le_pos; [lra|]. left. by apply Rinv_0_lt_compat.
    + apply Rmult_lt_reg_r with (Distance r p0 p1); [done|].
      unfold Rdiv. rewrite Rmult_assoc, Rinv_l by lra. lra.
    + unfold LineDistance. simpl. field. lra.
  - destruct (IH (s + Distance r p0 p1)) as (i & q0 & q1 & t & Hq0 & Hq1 & Ht & E & Hlen);
      [lra|done|].
    exists (S i), q0, q1, t. split_and!; try done; try lra.
    change (take (S (S i)) (p0 :: p1 :: tl'))
      with (p0 :: p1 :: take i tl').
    rewrite LineDistance_cons.
    change (p1 :: take i tl') with (take (S i) (p1 :: tl')). lra.
Qed.

(** For a distance strictly between 0 and the length of the line, [Along]
    returns a point on one segment of the line, and the line cut at that
    point (the vertices up to the segment, then the point) has exactly the
    length asked for. *)
Theorem Along_at_distance (r : Ruler) (l : Line) (dist : R) :
  0 < dist < LineDistance r l ->
  exists i p0 p1 q,
    l !! i = Some p0 /\ l !! S i = Some p1 /\
    Along r l dist = Some q /\
    Distance r p0 q + Distance r q p1 = Distance r p0 p1 /\
    LineDistance r (take (S i) l ++ [q]) = dist.
Proof.
  intros [Hpos Hlt].
  destruct (Along_loop_inside r dist l 0) as (i & p0 & p1 & t & Hp0 & Hp1 & Ht & E & Hlen);
    [lra|done|].
  exists i, p0, p1, (interpolate p0 p1 t). split_and!; try done.
  - unfold Along. rewrite decide_False by lra. by rewrite E.
  - rewrite Distance_interpolate_l, Distance_interpolate_r by lra. lra.
  - rewrite (LineDistance_snoc r _ p0) by (by apply last_take_S).
    rewrite Distance_interpolate_l by lra. lra.
Qed.

Lemma Along_at_distance_witness :
  exists i p0 p1 q,
    [mkPoint 0 0; mkPoint 2 0] !! i = Some p0 /\
    [mkPoint 0 0; mkPoint 2 0] !! S i = Some p1 /\
    Along (mkRuler 1 1) [mkPoint 0 0; mkPoint 2 0] 1 = Some q /\
    Distance (mkRuler 1 1) p0 q + Distance (mkRuler 1 1) q p1
      = Distance (mkRuler 1 1) p0 p1 /\
    LineDistance (mkRuler 1 1) (take (S i) [mkPoint 0 0; mkPoint 2 0] ++ [q]) = 1.
Proof.
  apply (Along_at_distance (mkRuler 1 1) [mkPoint 0 0; mkPoint 2 0] 1).
  unfold LineDistance. simpl.
  rewrite (Distance_eq _ _ _ 2) by (simpl; lra). lra.
Defined.

(** ** Length and first point of a slice by distance *)

Lemma LineDistance_pair (r : Ruler) (a b : Point) :
  LineDistance r [a; b] = Distance r a b.
Proof. rewrite LineDistance_cons, LineDistance_single. lra. Qed.

Lemma appendStart_nonempty start sum d p0 p1 slice :
  slice <> [] -> appendStart start sum d p0 p1 slice = slice.
Proof.
  intros H. unfold appendStart. rewrite decide_False; [done|].
  intros [_ Hlen]. by apply length_zero_iff_nil in Hlen.
Qed.

(** Once the slice has begun and ends at the vertex the scan stands on,
    the finished slice is [stop - start] long. *)
Lemma loop_length_started (r : Ruler) (start stop : R) (tl : Line) :
  forall p0 sum slice,
    positiveSegments r (p0 :: tl) ->
    last slice = Some p0 ->
    LineDistance r slice = sum - start ->
    sum <= stop -> stop <= LineDistance_loop r sum (p0 :: tl) ->
    LineDistance r (LineSliceAlong_loop r start stop sum slice (p0 :: tl))
    = stop - start.
Proof.
  induction tl as [|p1 tl' IH];
    intros p0 sum slice Hpos Hlast Hlen Hsum Hstop.
  - simpl in *. lra.
  - pose proof (positiveSegments_head _ _ _ _ Hpos) as Hd.
    pose proof (LineDistance_nonneg r slice) as Hnn.
    assert (slice <> []) as Hne by (intros ->; discriminate).
    rewrite LineSliceAlong_loop_cons. cbv zeta.
    rewrite appendStart_nonempty by done.
    set (d := Distance r p0 p1) in *.
    destruct (decide (sum + d >= stop)) as [Hge|Hlt].
    + unfold appendStop.
      rewrite (LineDistance_snoc r _ p0) by done.
      rewrite Distance_interpolate_l.
      * fold d. rewrite Hlen. field. lra.
      * apply Rmult_le_pos; [lra|]. left. apply Rinv_0_lt_compat. done.
    + unfold appendVertex. rewrite decide_True by lra.
      apply IH.
      * by eapply positiveSegments_tail.
      * apply last_snoc.
      * rewrite (LineDistance_snoc r _ p0) by done. fold d. lra.
      * lra.
      * done.
Qed.

(** Before the slice has begun. *)
Lemma loop_length_fresh (r : Ruler) (start stop : R) (l : Line) :
  forall sum,
    positiveSegments r l ->
    sum <= start -> start <= stop ->
    stop <= LineDistance_loop r sum l ->
    LineDistance r (LineSliceAlong_loop r start stop sum [] l)
    = stop - start.
Proof.
  induction l as [|p0 tl IH]; intros sum Hpos Hsum Hss Hstop.
  { simpl in *. unfold LineDistance. simpl. lra. }
  destruct tl as [|p1 tl'].
  { simpl in *. unfold LineDistance. simpl. lra. }
  pose proof (positiveSegments_head _ _ _ _ Hpos) as Hd.
  rewrite LineSliceAlong_loop_cons. cbv zeta.
  set (d := Distance r p0 p1) in *.
  unfold appendStart. simpl length.
  destruct (decide (sum + d > start /\ 0%nat = 0%nat)) as [[Hgt _]|Hngt].
  - assert (0 <= (start - (sum + d - d)) / d < 1) as Hts.
    { replace (start - (sum + d - d)) with (start - sum) by lra. split.
      - apply Rmult_le_pos; [lra|]. left. by apply Rinv_0_lt_compat.
      - apply Rmult_lt_reg_r with d; [done|].
        unfold Rdiv. rewrite Rmult_assoc, Rinv_l by lra. lra. }
    destruct (decide (sum + d >= stop)) as [Hge|Hlt].
    + unfold appendStop. simpl.
      rewrite LineDistance_pair, Distance_interpolate. fold d.
      replace ((stop - (sum + d - d)) / d - (start - (sum + d - d)) / d)
        with ((stop - start) / d) by (field; lra).
      rewrite Rabs_right.
      * field. lra.
      * apply Rle_ge. apply Rmult_le_pos; [lra|].
        left. by apply Rinv_0_lt_compat.
    + unfold appendVertex. rewrite decide_True by done. simpl.
      apply loop_length_started.
      * by eapply positiveSegments_tail.
      * done.
      * rewrite LineDistance_pair, Distance_interpolate_r by lra.
        fold d. field. lra.
      * lra.
      * done.
  - assert (sum + d <= start) as Hle.
    { apply Rnot_gt_le. intros ?. by apply Hngt. }
    destruct (decide (sum + d >= stop)) as [Hge|Hlt].
    + unfold appendStop. simpl. rewrite LineDistance_single. lra.
    + unfold appendVertex. rewrite decide_False by lra.
      apply IH; [by eapply positiveSegments_tail|lra|lra|done].
Qed.

(** On a line whose consecutive points are at positive distance, the
    slice between two distances [0 <= start <= stop] that do not exceed the
    length of the line is [stop - start] long. *)
Theorem LineSliceAlong_length (r : Ruler) (start stop : R) (l : Line) :
  positiveSegments r l ->
  0 <= start -> start <= stop -> stop <= LineDistance r l ->
  LineDistance r (LineSliceAlong r start stop l) = stop - start.
Proof. intros. by apply loop_length_fresh. Qed.

Lemma LineSliceAlong_length_witness :
  let r := mkRuler 1 1 in
  let l := [mkPoint 0 0; mkPoint 1 0; mkPoint 1 2] in
  LineDistance r (LineSliceAlong r (1/2) 2 l) = 2 - 1/2.
Proof.
  cbv zeta.
  assert (Distance (mkRuler 1 1) (mkPoint 0 0) (mkPoint 1 0) = 1) as D01
    by (apply Distance_eq; simpl; lra).
  assert (Distance (mkRuler 1 1) (mkPoint 1 0) (mkPoint 1 2) = 2) as D12
    by (apply Distance_eq; simpl; lra).
  apply (LineSliceAlong_length (mkRuler 1 1) (1/2) 2
           [mkPoint 0 0; mkPoint 1 0; mkPoint 1 2]).
  - intros i p q Hp Hq.
    destruct i as [|[|i]]; simpl in Hp, Hq.
    + injection Hp as <-. injection Hq as <-. rewrite D01. lra.
    + injection Hp as <-. injection Hq as <-. rewrite D12. lra.
    + destruct i; discriminate.
  - lra.
  - lra.
  - rewrite !LineDistance_cons, LineDistance_single, D01, D12. lra.
Defined.

(** The exported loop only ever appends to its slice. *)
Lemma loop_extends (r : Ruler) (start stop : R) (l : Line) :
  forall sum slice,
    slice `prefix_of` LineSliceAlong_loop r start stop sum slice l.
Proof.
  induction l as [|p0 tl IH]; intros sum slice; [done|].
  destruct tl as [|p1 tl']; [done|].
  rewrite LineSliceAlong_loop_cons. cbv zeta.
  case_decide.
  - etransitivity; [apply appendStart_extends|apply appendStop_extends].
  - etransitivity; [|apply IH].
    etransitivity; [apply appendStart_extends|apply appendVertex_extends].
Qed.

Lemma head_prefix {A} (x : A) (l k : list A) :
  (x :: l) `prefix_of` k -> head k = Some x.
Proof. intros [k' ->]. reflexivity. Qed.

Lemma loop_head_is_Along_loop (r : Ruler) (start stop : R) (l : Line) :
  forall sum,
    sum <= start -> start < stop -> start < LineDistance_loop r sum l ->
    exists q,
      Along_loop r start sum l = Some q /\
      head (LineSliceAlong_loop r start stop sum [] l) = Some q.
Proof.
  induction l as [|p0 tl IH]; intros sum Hsum Hss Hlen; simpl in Hlen; [lra|].
  destruct tl as [|p1 tl']; [lra|].
  rewrite LineSliceAlong_loop_cons. cbn [Along_loop]. cbv zeta.
  set (d := Distance r p0 p1) in *.
  unfold appendStart. simpl length.
  destruct (decide (sum + d > start)) as [Hgt|Hle].
  - rewrite (decide_True (P := _ /\ _)) by (by split).
    eexists. split; [reflexivity|]. rewrite app_nil_l.
    case_decide; [reflexivity|].
    eapply head_prefix.
    etransitivity; [|apply loop_extends].
    apply appendVertex_extends.
  - rewrite (decide_False (P := _ /\ _)) by tauto.
    rewrite (decide_False (P := _ >= _)) by lra.
    unfold appendVertex. rewrite decide_False by done.
    apply IH; [lra|done|done].
Qed.

(** The slice from [start] to a later [stop] begins at the point [Along]
    returns for [start], when [start] lies strictly between 0 and the
    length of the line. *)
Theorem LineSliceAlong_starts_at_Along (r : Ruler) (start stop : R) (l : Line) :
  0 < start -> start < stop -> start < LineDistance r l ->
  head (LineSliceAlong r start stop l) = Along r l start.
Proof.
  intros Hpos Hss Hlen.
  destruct (loop_head_is_Along_loop r start stop l 0) as (q & Ha & Hh);
    [lra|done|done|].
  unfold Along, LineSliceAlong.
  rewrite decide_False by lra. by rewrite Ha, Hh.
Qed.

Lemma LineSliceAlong_starts_at_Along_witness :
  head (LineSliceAlong (mkRuler 1 1) 1 2 [mkPoint 0 0; mkPoint 4 0])
  = Along (mkRuler 1 1) [mkPoint 0 0; mkPoint 4 0] 1.
Proof.
  apply (LineSliceAlong_starts_at_Along (mkRuler 1 1) 1 2
           [mkPoint 0 0; mkPoint 4 0]); try lra.
  rewrite LineDistance_pair, (Distance_eq _ _ _ 4) by (simpl; lra). lra.
Defined.

(** ** Snapping: short lines, index range, closest point *)

Lemma candidateAt_Some_lt r l p i c :
  candidateAt r l p i = Some c -> (S i < length l)%nat.
Proof.
  unfold candidateAt. intros H.
  destruct (l !! i) as [p0|]; [|done]. simpl in H.
  destruct (l !! S i) as [p1|] eqn:E; [|done].
  by eapply lookup_lt_Some.
Qed.

(** What [PointOnLine] returns on a line of at least two points: the
    candidate of segment [index], which is at least as close to [p] as the
    candidate of any segment. *)
Lemma PointOnLine_candidate (r : Ruler) (l : Line) (p : Point) :
  (2 <= length l)%nat ->
  exists d,
    candidateAt r l p (index (PointOnLine r l p))
      = Some (point (PointOnLine r l p), d) /\
    forall j c dj, candidateAt r l p j = Some (c, dj) -> d <= dj.
Proof.
  intros Hlen.
  destruct (PointOnLine_loop_min r p l 0 (mkSnapVars PosInf 0 0 0 0 0))
    as [(_ & _ & _ & _ & Hnone)|(k & d & Hi & Hk & _ & _ & Hmin)].
  - destruct l as [|p0 [|p1 tl]]; simpl in Hlen; [lia..|].
    destruct (candidate r p p0 p1) as [c d] eqn:E.
    exfalso.
    apply (Hnone 0%nat c d); [by rewrite candidateAt_0, E|exact I].
  - exists d. unfold PointOnLine. simpl in *. rewrite Hi. split; [done|].
    intros j c dj Hj. by destruct (Hmin j c dj Hj).
Qed.

Lemma PointOnLine_index_lt (r : Ruler) (l : Line) (p : Point) :
  (2 <= length l)%nat -> (S (index (PointOnLine r l p)) < length l)%nat.
Proof.
  intros Hlen.
  destruct (PointOnLine_candidate r l p Hlen) as (d & Hc & _).
  by eapply candidateAt_Some_lt.
Qed.

Lemma PointOnLine_short (r : Ruler) (l : Line) (p : Point) :
  (length l < 2)%nat ->
  PointOnLine r l p = mkPointOnLine (mkPoint 0 0) 0 0.
Proof.
  intros Hlen. destruct l as [|p0 [|p1 tl]]; simpl in Hlen; try lia;
    unfold PointOnLine; simpl; f_equal;
    unfold Rmax, Rmin; repeat (destruct (Rle_dec _ _); try lra).
Qed.

(** On a line of fewer than two points [PointOnLine] does not fail: it
    returns the zero point, index 0 and [t = 0].  On a line of at least two
    points the index it returns is the index of a segment of the line. *)
Theorem PointOnLine_index_range (r : Ruler) (l : Line) (p : Point) :
  ((length l < 2)%nat ->
   PointOnLine r l p = mkPointOnLine (mkPoint 0 0) 0 0) /\
  ((2 <= length l)%nat ->
   (index (PointOnLine r l p) + 1 < length l)%nat).
Proof.
  split; [apply PointOnLine_short|].
  intros H. pose proof (PointOnLine_index_lt r l p H). lia.
Qed.

Lemma PointOnLine_index_range_witness :
  PointOnLine (mkRuler 1 1) [mkPoint 5 5] (mkPoint 1 1)
    = mkPointOnLine (mkPoint 0 0) 0 0 /\
  (index (PointOnLine (mkRuler 1 1) [mkPoint 0 0; mkPoint 1 0] (mkPoint 1 1))
   + 1 < 2)%nat.
Proof.
  split.
  - apply (proj1 (PointOnLine_index_range (mkRuler 1 1) [mkPoint 5 5]
                    (mkPoint 1 1))). simpl. lia.
  - apply (proj2 (PointOnLine_index_range (mkRuler 1 1)
                    [mkPoint 0 0; mkPoint 1 0] (mkPoint 1 1))). simpl. lia.
Defined.

(** [LineSlice] panics on a line of fewer than two points, whatever the
    two query points, and on no other line. *)
Theorem LineSlice_panics_iff_short (r : Ruler) (start end_ : Point) (l : Line) :
  LineSlice r start end_ l = None <-> (length l < 2)%nat.
Proof.
  split.
  - intros H. destruct (decide (length l < 2)%nat) as [|Hlen]; [done|].
    exfalso. assert (2 <= length l)%nat as Hl by lia.
    pose proof (PointOnLine_index_lt r l start Hl) as H1.
    pose proof (PointOnLine_index_lt r l end_ Hl) as H2.
    unfold LineSlice in H.
    set (a := PointOnLine r l start) in *.
    set (b := PointOnLine r l end_) in *.
    assert (forall p1 p2 : PointOnLine_t,
              (S (index p1) < length l)%nat ->
              (S (index p2) < length l)%nat ->
              (lleft ← l !! (index p1 + 1)%nat;
               middle ← mapM (fun i => l !! i)
                          (seq (index p1 + 1 + 1) (index p2 - (index p1 + 1)));
               lright ← l !! index p2;
               Some (if decide (lright <> point p2)
                     then ((if decide (lleft <> point p1
                                       /\ (index p1 + 1 <= index p2)%nat)
                            then [point p1] ++ [lleft] else [point p1])
                           ++ middle) ++ [point p2]
                     else (if decide (lleft <> point p1
                                      /\ (index p1 + 1 <= index p2)%nat)
                           then [point p1] ++ [lleft] else [point p1])
                          ++ middle)) <> None) as Hok.
    { intros p1 p2 Hp1 Hp2.
      destruct (lookup_lt_is_Some_2 l (index p1 + 1)) as [x ->]; [lia|].
      destruct (lookup_lt_is_Some_2 l (index p2)) as [y Hy]; [lia|].
      destruct (mapM_is_Some_2 (fun i => l !! i)
                  (seq (index p1 + 1 + 1) (index p2 - (index p1 + 1))))
        as [m ->].
      { apply Forall_seq. intros j Hj. simpl.
        apply lookup_lt_is_Some_2. lia. }
      simpl. rewrite Hy. simpl. done. }
    destruct (decide (swapped a b)); [by apply (Hok b a)|by apply (Hok a b)].
  - intros Hlen. unfold LineSlice.
    rewrite !PointOnLine_short by done.
    destruct (decide (swapped _ _)); simpl;
      destruct l as [|p0 [|p1 tl]]; simpl in *; try done; lia.
Qed.

(** The parameter [c] the loop body settles on (1 when [t > 1], [t] when
    [0 < t <= 1], 0 otherwise) minimises the squared distance from [w] to
    [s * u] over [0 <= s <= 1]. *)
Lemma clamped_parameter_is_closest (w1 w2 u1 u2 c s : R) :
  0 <= s <= 1 ->
  (c = 1 /\ u1 * u1 + u2 * u2 <= w1 * u1 + w2 * u2) \/
  (c * (u1 * u1 + u2 * u2) = w1 * u1 + w2 * u2) \/
  (c = 0 /\ w1 * u1 + w2 * u2 <= 0) ->
  (w1 - c * u1) * (w1 - c * u1) + (w2 - c * u2) * (w2 - c * u2)
  <= (w1 - s * u1) * (w1 - s * u1) + (w2 - s * u2) * (w2 - s * u2).
Proof.
  intros [Hs0 Hs1] Hc.
  set (N := u1 * u1 + u2 * u2) in *.
  set (W := w1 * u1 + w2 * u2) in *.
  assert (0 <= N) as HN by apply sum_squares_nonneg.
  assert ((w1 - s * u1) * (w1 - s * u1) + (w2 - s * u2) * (w2 - s * u2)
          - ((w1 - c * u1) * (w1 - c * u1) + (w2 - c * u2) * (w2 - c * u2))
          = (s - c) * ((s + c) * N - 2 * W)) as E by (unfold N, W; ring).
  apply Rge_le, Rminus_ge, Rle_ge. rewrite E. clear E. clearbody N W.
  destruct Hc as [[-> H]|[H|[-> H]]].
  - replace ((s - 1) * ((s + 1) * N - 2 * W))
      with ((1 - s) * (2 * (W - N) + (1 - s) * N)) by ring.
    apply Rmult_le_pos; [lra|].
    apply Rplus_le_le_0_compat; [lra|]. apply Rmult_le_pos; lra.
  - rewrite <- H.
    replace ((s - c) * ((s + c) * N - 2 * (c * N)))
      with ((s - c) * (s - c) * N) by ring.
    apply Rmult_le_pos; [apply Rle_0_sqr|done].
  - replace ((s - 0) * ((s + 0) * N - 2 * W))
      with (s * (s * N + 2 * (- W))) by ring.
    apply Rmult_le_pos; [done|].
    apply Rplus_le_le_0_compat; [by apply Rmult_le_pos|lra].
Qed.

(** The candidate of a segment is at least as close to the query point,
    in projected distance, as every point of the segment. *)
Lemma candidate_closest_on_segment (r : Ruler) (p p0 p1 : Point) (s : R) :
  kx r <> 0 -> ky r <> 0 -> 0 <= s <= 1 ->
  (candidate r p p0 p1).2
  <= sqDistTo r p (lon (interpolate p0 p1 s)) (lat (interpolate p0 p1 s)).
Proof.
  intros Hkx Hky Hs.
  set (u1 := (lon p1 - lon p0) * kx r).
  set (u2 := (lat p1 - lat p0) * ky r).
  set (w1 := (lon p - lon p0) * kx r).
  set (w2 := (lat p - lat p0) * ky r).
  assert (sqDistTo r p (lon (interpolate p0 p1 s)) (lat (interpolate p0 p1 s))
          = (w1 - s * u1) * (w1 - s * u1) + (w2 - s * u2) * (w2 - s * u2))
    as -> by (unfold sqDistTo, interpolate, u1, u2, w1, w2; simpl; ring).
  unfold candidate, snap. fold u1 u2 w1 w2.
  destruct (decide (u1 <> 0 \/ u2 <> 0)) as [Hu|Hu].
  - assert (0 < u1 * u1 + u2 * u2) as HN.
    { pose proof (sum_squares_nonneg u1 u2) as Hnn.
      destruct (Req_dec (u1 * u1 + u2 * u2) 0) as [E|E]; [|lra].
      apply sum_squares_zero in E. tauto. }
    set (tt := (w1 * u1 + w2 * u2) / (u1 * u1 + u2 * u2)).
    assert (tt * (u1 * u1 + u2 * u2) = w1 * u1 + w2 * u2) as Ht
      by (unfold tt; field; lra).
    destruct (decide (tt > 1)) as [H1|H1]; [|destruct (decide (tt > 0)) as [H0|H0]];
      simpl.
    + replace (sqDistTo r p (lon p1) (lat p1))
        with ((w1 - 1 * u1) * (w1 - 1 * u1) + (w2 - 1 * u2) * (w2 - 1 * u2))
        by (unfold sqDistTo, u1, u2, w1, w2; ring).
      apply clamped_parameter_is_closest; [done|]. left. split; [done|]. nra.
    + replace (sqDistTo r p (lon p0 + u1 / kx r * tt) (lat p0 + u2 / ky r * tt))
        with ((w1 - tt * u1) * (w1 - tt * u1) + (w2 - tt * u2) * (w2 - tt * u2))
        by (unfold sqDistTo, w1, w2; field; done).
      apply clamped_parameter_is_closest; [done|]. right. by left.
    + replace (sqDistTo r p (lon p0) (lat p0))
        with ((w1 - 0 * u1) * (w1 - 0 * u1) + (w2 - 0 * u2) * (w2 - 0 * u2))
        by (unfold sqDistTo, u1, u2, w1, w2; ring).
      apply clamped_parameter_is_closest; [done|]. right. right.
      split; [done|]. nra.
  - assert (u1 = 0) as E1.
    { destruct (Req_dec u1 0); [done|]. exfalso. apply Hu. by left. }
    assert (u2 = 0) as E2.
    { destruct (Req_dec u2 0); [done|]. exfalso. apply Hu. by right. }
    simpl. rewrite E1, E2.
    unfold sqDistTo. fold w1 w2. right. ring.
Qed.

Lemma candidateAt_sqDistTo (r : Ruler) (l : Line) (p : Point) (i : nat)
    (c : Point) (d : R) :
  candidateAt r l p i = Some (c, d) -> d = sqDistTo r p (lon c) (lat c).
Proof.
  unfold candidateAt. intros H.
  destruct (l !! i) as [q0|]; [|discriminate]. simpl in H.
  destruct (l !! S i) as [q1|]; [|discriminate]. simpl in H.
  injection H as H. unfold candidate in H.
  destruct (snap r p q0 q1 0) as [[x y] t0].
  injection H as <- <-. reflexivity.
Qed.

Lemma Distance_sqDistTo (r : Ruler) (p q : Point) :
  Distance r p q = sqrt (sqDistTo r p (lon q) (lat q)).
Proof. reflexivity. Qed.

Lemma PointOnLine_no_farther (r : Ruler) (l : Line) (p : Point)
    (i : nat) (p0 p1 : Point) (s : R) :
  kx r <> 0 -> ky r <> 0 ->
  l !! i = Some p0 -> l !! S i = Some p1 -> 0 <= s <= 1 ->
  Distance r p (point (PointOnLine r l p))
  <= Distance r p (interpolate p0 p1 s).
Proof.
  intros Hkx Hky Hp0 Hp1 Hs.
  assert (2 <= length l)%nat as Hlen.
  { apply lookup_lt_Some in Hp1. lia. }
  destruct (PointOnLine_candidate r l p Hlen) as (d & Hc & Hmin).
  assert (candidateAt r l p i = Some (candidate r p p0 p1)) as Hi.
  { unfold candidateAt. rewrite Hp0. simpl. by rewrite Hp1. }
  destruct (candidate r p p0 p1) as [c di] eqn:Ec.
  pose proof (Hmin i c di Hi) as Hle.
  pose proof (candidate_closest_on_segment r p p0 p1 s Hkx Hky Hs) as Hseg.
  rewrite Ec in Hseg. change ((c, di).2) with di in Hseg.
  assert (d = sqDistTo r p (lon (point (PointOnLine r l p)))
                (lat (point (PointOnLine r l p)))) as Ed.
  { by eapply candidateAt_sqDistTo. }
  rewrite !Distance_sqDistTo, <- Ed.
  apply sqrt_le_1_alt. lra.
Qed.

(** Under a ruler whose scale factors are not zero, the point
    [PointOnLine] returns is at least as close to the query point as every
    point of every segment of the line. *)
Theorem PointOnLine_closest (r : Ruler) (l : Line) (p : Point)
    (i : nat) (p0 p1 : Point) (s : R) :
  kx r <> 0 -> ky r <> 0 ->
  l !! i = Some p0 -> l !! S i = Some p1 -> 0 <= s <= 1 ->
  Distance r p (point (PointOnLine r l p))
  <= Distance r p (interpolate p0 p1 s).
Proof. apply PointOnLine_no_farther. Qed.

Lemma PointOnLine_closest_witness :
  Distance (mkRuler 1 1) (mkPoint 1 1)
    (point (PointOnLine (mkRuler 1 1) [mkPoint 0 0; mkPoint 4 0] (mkPoint 1 1)))
  <= Distance (mkRuler 1 1) (mkPoint 1 1)
       (interpolate (mkPoint 0 0) (mkPoint 4 0) (1/2)).
Proof.
  apply (PointOnLine_closest (mkRuler 1 1) [mkPoint 0 0; mkPoint 4 0]
           (mkPoint 1 1) 0 (mkPoint 0 0) (mkPoint 4 0) (1/2)).
  - simpl. lra.
  - simpl. lra.
  - reflexivity.
  - reflexivity.
  - lra.
Defined.

(** Under a ruler whose scale factors are not zero, snapping a vertex of
    a line of at least two points onto that line returns the vertex. *)
Theorem PointOnLine_of_vertex (r : Ruler) (l : Line) (i : nat) (p : Point) :
  kx r <> 0 -> ky r <> 0 -> (2 <= length l)%nat ->
  l !! i = Some p ->
  point (PointOnLine r l p) = p.
Proof.
  intros Hkx Hky Hlen Hp. symmetry.
  apply (Distance_zero_same r); [done..|].
  pose proof (Distance_nonneg r p (point (PointOnLine r l p))) as Hnn.
  pose proof (lookup_lt_Some _ _ _ Hp) as Hi.
  assert (Distance r p (point (PointOnLine r l p)) <= 0); [|lra].
  destruct (decide (S i < length l)%nat) as [Hlt|Hge].
  - destruct (lookup_lt_is_Some_2 l (S i) Hlt) as [p1 Hp1].
    transitivity (Distance r p (interpolate p p1 0)).
    + apply (PointOnLine_no_farther r l p i p p1 0); [done..|lra].
    + rewrite interpolate_0, Distance_same. lra.
  - destruct i as [|i]; [lia|].
    destruct (lookup_lt_is_Some_2 l i) as [p0 Hp0]; [lia|].
    transitivity (Distance r p (interpolate p0 p 1)).
    + apply (PointOnLine_no_farther r l p i p0 p 1); [done..|lra].
    + rewrite interpolate_1, Distance_same. lra.
Qed.

Lemma PointOnLine_of_vertex_witness :
  point (PointOnLine (mkRuler 1 2) [mkPoint 0 0; mkPoint 4 0; mkPoint 4 3]
           (mkPoint 4 0))
  = mkPoint 4 0.
Proof.
  apply (PointOnLine_of_vertex (mkRuler 1 2)
           [mkPoint 0 0; mkPoint 4 0; mkPoint 4 3] 1 (mkPoint 4 0)).
  - simpl. lra.
  - simpl. lra.
  - simpl. lia.
  - reflexivity.
Defined.

(** ** Area *)

(** Once [k = j], an iteration of the inner loop adds
    [(ring[j].lon - ring[j].lon) * ...], which is 0. *)
Lemma Area_ring_same_index (ring : Line) (isNotHole : R) (n : nat) :
  forall j sum,
    (j + n <= length ring)%nat ->
    Area_ring ring isNotHole n j j sum = Some sum.
Proof.
  induction n as [|n IH]; intros j sum Hj; [done|].
  destruct (lookup_lt_is_Some_2 ring j) as [pj Hpj]; [lia|].
  cbn [Area_ring]. rewrite Hpj. simpl.
  rewrite IH by lia. f_equal. ring.
Qed.

(** The inner loop over a whole ring: only its first iteration, which
    pairs the first point with the last, contributes. *)
Lemma Area_ring_first_last (ring : Line) (isNotHole sum : R) :
  Area_ring ring isNotHole (length ring) 0 (length ring - 1) sum
  = Some (sum + firstLastTerm ring * isNotHole).
Proof.
  destruct ring as [|p0 tl].
  - simpl. f_equal. unfold firstLastTerm. simpl. lra.
  - change (length (p0 :: tl)) with (S (length tl)) at 1.
    cbn [Area_ring].
    change ((p0 :: tl) !! 0%nat) with (Some p0). simpl mbind.
    replace ((p0 :: tl) !! (length tl - 0)%nat) with (last (p0 :: tl))
      by (rewrite last_lookup; f_equal; simpl; lia).
    destruct (last (p0 :: tl)) as [pl|] eqn:El.
    + simpl. rewrite Area_ring_same_index by (simpl; lia).
      unfold firstLastTerm. simpl head. by rewrite El.
    + by apply last_None in El.
Qed.

Lemma Area_loop_first_last (p : Polygon) :
  forall i sum, Area_loop i sum p = Some (sum + firstLastSum i p).
Proof.
  induction p as [|ring rings IH]; intros i sum; simpl.
  - f_equal. lra.
  - rewrite Area_ring_first_last. simpl. rewrite IH. f_equal. ring.
Qed.

(** [Area] never panics, and what it returns is made of the first and the
    last point of every ring only: after the first iteration over a ring
    the two indices of the inner loop are equal, so the remaining
    iterations add nothing. *)
Theorem Area_uses_first_and_last_points (r : Ruler) (p : Polygon) :
  Area r p = Some ((Rabs (firstLastSum 0 p) / 2) * kx r * ky r).
Proof.
  unfold Area. rewrite Area_loop_first_last. simpl.
  by rewrite Rplus_0_l.
Qed.

Lemma firstLastSum_closed_rings (p : Polygon) :
  Forall (fun ring => head ring = last ring) p ->
  forall i, firstLastSum i p = 0.
Proof.
  induction 1 as [|ring rings Hring _ IH]; intros i; simpl; [done|].
  rewrite IH.
  assert (firstLastTerm ring = 0) as ->; [|ring].
  unfold firstLastTerm. rewrite Hring.
  destruct (last ring); ring.
Qed.

(** For a polygon whose every ring ends with the point it begins with,
    [Area] returns 0. *)
Theorem Area_closed_rings_zero (r : Ruler) (p : Polygon) :
  Forall (fun ring => head ring = last ring) p ->
  Area r p = Some 0.
Proof.
  intros H. unfold Area. rewrite Area_loop_first_last. simpl.
  rewrite firstLastSum_closed_rings by done.
  f_equal. rewrite Rplus_0_l, Rabs_R0. lra.
Qed.

Lemma Area_closed_rings_zero_witness :
  Area (mkRuler 1 1)
    [[mkPoint 0 0; mkPoint 1 0; mkPoint 1 1; mkPoint 0 1; mkPoint 0 0]]
  = Some 0.
Proof.
  apply (Area_closed_rings_zero (mkRuler 1 1)
    [[mkPoint 0 0; mkPoint 1 0; mkPoint 1 1; mkPoint 0 1; mkPoint 0 0]]).
  repeat constructor.
Defined.

(** ** The snapped point and its parameter *)

(** The point the loop body computes for a segment is the interpolation on
    that segment at the clamped value of [t]. *)
Lemma snap_is_interpolation (r : Ruler) (p p0 p1 : Point) (t0 : R) :
  kx r <> 0 -> ky r <> 0 ->
  let '(x, y, t1) := snap r p p0 p1 t0 in
  mkPoint x y = interpolate p0 p1 (Rmax 0 (Rmin 1 t1)).
Proof.
  intros Hkx Hky. unfold snap.
  destruct (decide ((lon p1 - lon p0) * kx r <> 0
                    \/ (lat p1 - lat p0) * ky r <> 0)) as [Hu|Hu].
  - set (tt := _ / _).
    destruct (decide (tt > 1)); [|destruct (decide (tt > 0))].
    + rewrite Rmin_left by lra. rewrite Rmax_right by lra.
      by rewrite interpolate_1; destruct p1.
    + rewrite Rmin_right by lra. rewrite Rmax_right by lra.
      unfold interpolate. f_equal; field; done.
    + rewrite Rmin_right by lra. rewrite Rmax_left by lra.
      by rewrite interpolate_0; destruct p0.
  - assert (lon p1 - lon p0 = 0) as E1.
    { destruct (Req_dec ((lon p1 - lon p0) * kx r) 0) as [E|E].
      - apply Rmult_integral in E as [E|E]; done.
      - exfalso. apply Hu. by left. }
    assert (lat p1 - lat p0 = 0) as E2.
    { destruct (Req_dec ((lat p1 - lat p0) * ky r) 0) as [E|E].
      - apply Rmult_integral in E as [E|E]; done.
      - exfalso. apply Hu. by right. }
    unfold interpolate. rewrite E1, E2. f_equal; ring.
Qed.

Lemma PointOnLine_loop_invariant (r : Ruler) (p : Point) (L : Line) :
  kx r <> 0 -> ky r <> 0 ->
  forall l pre s,
    L = pre ++ l ->
    snapInvariant L s ->
    snapInvariant L (PointOnLine_loop r p (length pre) s l).
Proof.
  intros Hkx Hky.
  induction l as [|p0 tl IH]; intros pre s HL Hinv; [done|].
  destruct tl as [|p1 tl']; [done|].
  rewrite PointOnLine_loop_cons.
  replace (S (length pre)) with (length (pre ++ [p0]))
    by (rewrite length_app; simpl; lia).
  apply IH; [by rewrite <- app_assoc|].
  unfold PointOnLine_body.
  pose proof (snap_is_interpolation r p p0 p1 (tvar s) Hkx Hky) as Hsnap.
  destruct (snap r p p0 p1 (tvar s)) as [[x y] t1].
  case_decide; [|done].
  right. exists p0, p1. simpl. split_and!; [| |done].
  - rewrite HL. by rewrite lookup_app_r, Nat.sub_diag by lia.
  - rewrite HL. rewrite lookup_app_r by lia.
    by replace (S (length pre) - length pre)%nat with 1%nat by lia.
Qed.

Lemma PointOnLine_interpolates (r : Ruler) (l : Line) (p : Point) :
  kx r <> 0 -> ky r <> 0 -> (2 <= length l)%nat ->
  exists p0 p1,
    l !! index (PointOnLine r l p) = Some p0 /\
    l !! S (index (PointOnLine r l p)) = Some p1 /\
    point (PointOnLine r l p) = interpolate p0 p1 (t (PointOnLine r l p)).
Proof.
  intros Hkx Hky Hlen.
  pose proof (PointOnLine_loop_invariant r p l Hkx Hky l []
                (mkSnapVars PosInf 0 0 0 0 0) eq_refl) as Hinv.
  simpl in Hinv.
  destruct Hinv as [Hinf|Hinv]; [by left| |done].
  exfalso.
  destruct (PointOnLine_loop_min r p l 0 (mkSnapVars PosInf 0 0 0 0 0))
    as [(_ & _ & _ & _ & Hnone)|(k & d & _ & _ & Hd & _)].
  - destruct l as [|p0 [|p1 tl]]; simpl in Hlen; [lia..|].
    destruct (candidate r p p0 p1) as [c d] eqn:E.
    apply (Hnone 0%nat c d); [by rewrite candidateAt_0, E|exact I].
  - rewrite Hinf in Hd. discriminate.
Qed.

(** Under a ruler whose scale factors are not zero and on a line of at
    least two points, the three fields [PointOnLine] returns agree: the
    point is the interpolation at [t] on the segment [index]. *)
Theorem PointOnLine_point_at_t (r : Ruler) (l : Line) (p : Point) :
  kx r <> 0 -> ky r <> 0 -> (2 <= length l)%nat ->
  exists p0 p1,
    l !! index (PointOnLine r l p) = Some p0 /\
    l !! S (index (PointOnLine r l p)) = Some p1 /\
    point (PointOnLine r l p) = interpolate p0 p1 (t (PointOnLine r l p)).
Proof. apply PointOnLine_interpolates. Qed.

Lemma PointOnLine_point_at_t_witness :
  exists p0 p1,
    [mkPoint 0 0; mkPoint 4 0]
      !! index (PointOnLine (mkRuler 1 2) [mkPoint 0 0; mkPoint 4 0] (mkPoint 1 1))
    = Some p0 /\
    [mkPoint 0 0; mkPoint 4 0]
      !! S (index (PointOnLine (mkRuler 1 2) [mkPoint 0 0; mkPoint 4 0]
                     (mkPoint 1 1)))
    = Some p1 /\
    point (PointOnLine (mkRuler 1 2) [mkPoint 0 0; mkPoint 4 0] (mkPoint 1 1))
    = interpolate p0 p1
        (t (PointOnLine (mkRuler 1 2) [mkPoint 0 0; mkPoint 4 0] (mkPoint 1 1))).
Proof.
  apply (PointOnLine_point_at_t (mkRuler 1 2) [mkPoint 0 0; mkPoint 4 0]
           (mkPoint 1 1)).
  - simpl. lra.
  - simpl. lra.
  - simpl. lia.
Defined.

(** Two snaps onto the same line with the same index and the same [t]
    are the same. *)
Lemma PointOnLine_same_index_t (r : Ruler) (l : Line) (a b : Point) :
  kx r <> 0 -> ky r <> 0 ->
  index (PointOnLine r l a) = index (PointOnLine r l b) ->
  t (PointOnLine r l a) = t (PointOnLine r l b) ->
  PointOnLine r l a = PointOnLine r l b.
Proof.
  intros Hkx Hky Hi Ht.
  destruct (decide (length l < 2)%nat) as [Hs|Hlen].
  { by rewrite !PointOnLine_short. }
  assert (2 <= length l)%nat as Hl by lia.
  destruct (PointOnLine_interpolates r l a Hkx Hky Hl) as (a0 & a1 & Ha0 & Ha1 & Ea).
  destruct (PointOnLine_interpolates r l b Hkx Hky Hl) as (b0 & b1 & Hb0 & Hb1 & Eb).
  rewrite Hi in Ha0, Ha1. rewrite Ha0 in Hb0. rewrite Ha1 in Hb1.
  injection Hb0 as <-. injection Hb1 as <-.
  rewrite Ht in Ea.
  destruct (PointOnLine r l a) as [pa ia ta], (PointOnLine r l b) as [pb ib tb].
  simpl in *. by subst.
Qed.

(** Under a ruler whose scale factors are not zero, [LineSlice] does not
    depend on the order of its two query points. *)
Theorem LineSlice_sym (r : Ruler) (start end_ : Point) (l : Line) :
  kx r <> 0 -> ky r <> 0 ->
  LineSlice r start end_ l = LineSlice r end_ start l.
Proof.
  intros Hkx Hky. unfold LineSlice.
  pose proof (PointOnLine_same_index_t r l start end_ Hkx Hky) as Hsame.
  set (a := PointOnLine r l start) in *.
  set (b := PointOnLine r l end_) in *.
  destruct (decide (swapped a b)) as [Hab|Hab];
    destruct (decide (swapped b a)) as [Hba|Hba]; try reflexivity.
  - exfalso. unfold swapped in *. destruct Hab as [?|[? ?]], Hba as [?|[? ?]];
      first [lia | lra].
  - assert (a = b) as ->; [|reflexivity].
    unfold swapped in *.
    apply Hsame.
    + destruct (lt_eq_lt_dec (index a) (index b)) as [[?|?]|?]; [|done|].
      * exfalso. apply Hba. left. lia.
      * exfalso. apply Hab. left. lia.
    + assert (index a = index b) as Hi.
      { destruct (lt_eq_lt_dec (index a) (index b)) as [[?|?]|?]; [|done|].
        - exfalso. apply Hba. left. lia.
        - exfalso. apply Hab. left. lia. }
      destruct (Rtotal_order (t a) (t b)) as [?|[?|?]]; [|done|].
      * exfalso. apply Hab. by right.
      * exfalso. apply Hba. right. split; [done|lra].
Qed.

Lemma LineSlice_sym_witness :
  LineSlice (mkRuler 1 2) (mkPoint 1 0) (mkPoint 3 0) [mkPoint 0 0; mkPoint 4 0]
  = LineSlice (mkRuler 1 2) (mkPoint 3 0) (mkPoint 1 0) [mkPoint 0 0; mkPoint 4 0].
Proof.
  apply (LineSlice_sym (mkRuler 1 2) (mkPoint 1 0) (mkPoint 3 0)
           [mkPoint 0 0; mkPoint 4 0]); simpl; lra.
Defined.

(** ** Interpolation *)

(** [interpolate] returns the first point at [t = 0] and the second at
    [t = 1], and two points interpolated between the same two points are
    apart by the difference of their parameters times the distance of the
    two points. *)
Theorem interpolate_distance (r : Ruler) (a b : Point) (s t : R) :
  interpolate a b 0 = a /\
  interpolate a b 1 = b /\
  Distance r (interpolate a b s) (interpolate a b t)
  = Rabs (t - s) * Distance r a b.
Proof.
  split_and!;
    [apply interpolate_0|apply interpolate_1|apply Distance_interpolate].
Qed.
